(** * Memory trainer: the action layer over the Astro DB tables

    Shallow embedding of [src/db/tables.ts] (the four tables) and of
    [src/src/actions/index.ts] (the seven server actions).

    - A table is a list of rows in storage order; an insert appends a row
      whose [id] is the table's autoincrement counter.
    - [where] clauses are evaluated with SQL's three-valued logic: a
      comparison involving NULL is UNKNOWN ([None]), and a row is kept only
      when its condition is TRUE.  [eq(col, v)] of drizzle is the SQL
      comparison [col = ?] with [v] bound as a parameter; [eq(col, null)]
      therefore binds NULL.
    - [new Date()] is the clock value [clk] passed to the action.
    - zod input validation runs before the handler (as [defineAction] does)
      and fails with [BAD_REQUEST].
    - [undefined] (an absent optional field) is [None]. *)

From Stdlib Require Import String ZArith QArith List Bool Lia.
Import ListNotations.
#[local] Set Warnings "-register-all".
Open Scope string_scope.
Open Scope Z_scope.

(** ** Values *)

(** Arbitrary JSON documents ([column.json], [z.any()]). *)
Inductive json : Type :=
| JNull
| JBool (b : bool)
| JNum (q : Q)
| JStr (s : string)
| JArr (l : list json)
| JObj (l : list (string * json)).

(** ** Tables ([src/db/tables.ts]) *)

Module MemoryGames.
Record row : Type := mk {
  id : Z;
  ownerId : option string;  (* system = null *)
  name : string;
  description : option string;
  gameType : string;
  difficultyLevels : option json;
  isActive : bool;
  createdAt : Z
}.
End MemoryGames.

Inductive session_status : Type := in_progress | completed | abandoned.

Module MemorySessions.
Record row : Type := mk {
  id : Z;
  gameId : Z;
  userId : string;
  status : session_status;
  totalScore : Z;
  difficulty : option string;
  startedAt : Z;
  endedAt : option Z;
  meta : option json
}.
End MemorySessions.

Module MemoryRounds.
Record row : Type := mk {
  id : Z;
  sessionId : Z;
  roundNumber : Z;
  prompt : json;
  response : option json;
  isCorrect : bool;
  score : Z;
  createdAt : Z
}.
End MemoryRounds.

Module MemoryPerformance.
Record row : Type := mk {
  id : Z;
  userId : string;
  gameId : Z;
  totalSessions : Z;
  averageScore : Q;
  bestScore : Q;
  difficultyPreference : option string;
  updatedAt : Z
}.
End MemoryPerformance.

(** The database: the four tables with their autoincrement counters. *)
Record db : Type := mkDb {
  games : list MemoryGames.row;
  sessions : list MemorySessions.row;
  rounds : list MemoryRounds.row;
  performance : list MemoryPerformance.row;
  next_game_id : Z;
  next_session_id : Z;
  next_round_id : Z;
  next_performance_id : Z
}.

Definition empty_db : db := mkDb [] [] [] [] 1 1 1 1.

(** ** SQL conditions (three-valued) *)

Definition sql_bool := option bool.

(** [a = b] on a NOT NULL integer column. *)
Definition sql_eq_int (a b : Z) : sql_bool := Some (Z.eqb a b).

(** [a = b] on a text column; NULL on either side gives UNKNOWN. *)
Definition sql_eq_text (a b : option string) : sql_bool :=
  match a, b with
  | Some x, Some y => Some (String.eqb x y)
  | _, _ => None
  end.

Definition sql_and (a b : sql_bool) : sql_bool :=
  match a, b with
  | Some false, _ | _, Some false => Some false
  | Some true, Some true => Some true
  | _, _ => None
  end.

Definition sql_or (a b : sql_bool) : sql_bool :=
  match a, b with
  | Some true, _ | _, Some true => Some true
  | Some false, Some false => Some false
  | _, _ => None
  end.

(** WHERE keeps a row only when its condition is TRUE. *)
Definition sql_true (c : sql_bool) : bool :=
  match c with Some true => true | _ => false end.

Definition sql_where {A} (c : A -> sql_bool) (l : list A) : list A :=
  filter (fun r => sql_true (c r)) l.

(** [const [x] = await q.limit(1)]: the first row, or [undefined]. *)
Definition limit1 {A} (l : list A) : option A :=
  match l with [] => None | x :: _ => Some x end.

(** ** Errors and the action monad *)

(** The codes of [ActionError] the actions throw, and
    [INTERNAL_SERVER_ERROR] for an exception that is not an [ActionError]
    (here: a statement refused by the database), which fails the request
    with a server error. *)
Inductive error_code : Type := UNAUTHORIZED | NOT_FOUND | BAD_REQUEST | INTERNAL_SERVER_ERROR.

(** [ActionError]: a code and a message. *)
Record action_error : Type := mkErr { code : error_code; message : string }.

(** An action reads and writes the database and may throw; a throw
    leaves the database as it was when it was thrown. *)
Definition M (A : Type) : Type := db -> action_error + (A * db).

Definition ret {A} (x : A) : M A := fun d => inr (x, d).
Definition bind {A B} (m : M A) (k : A -> M B) : M B :=
  fun d => match m d with inl e => inl e | inr (x, d') => k x d' end.
Definition throw {A} (e : action_error) : M A := fun _ => inl e.

Notation "x <- m ;; k" := (bind m (fun x => k))
  (at level 61, m at next level, right associativity).

(** zod parsing of the input, before the handler runs. *)
Definition zod_check (ok : bool) : M unit :=
  if ok then ret tt else throw (mkErr BAD_REQUEST "Invalid input").

(** [requireUser]: the signed-in user's id, or UNAUTHORIZED. *)
Definition requireUser (user : option string) : M string :=
  match user with
  | Some u => ret u
  | None => throw (mkErr UNAUTHORIZED "You must be signed in to perform this action.")
  end.

(** ** Table access (drizzle's select / insert / update ... returning) *)

Definition select_games (c : MemoryGames.row -> sql_bool) : M (list MemoryGames.row) :=
  fun d => inr (sql_where c (games d), d).

Definition select_sessions (c : MemorySessions.row -> sql_bool)
  : M (list MemorySessions.row) :=
  fun d => inr (sql_where c (sessions d), d).

Definition select_performance (c : MemoryPerformance.row -> sql_bool)
  : M (list MemoryPerformance.row) :=
  fun d => inr (sql_where c (performance d), d).

(** [insert(T).values(v).returning()]: the row gets the next id. *)
Definition insert_game (v : Z -> MemoryGames.row) : M MemoryGames.row :=
  fun d =>
    let r := v (next_game_id d) in
    inr (r, mkDb (games d ++ [r]) (sessions d) (rounds d) (performance d)
               (next_game_id d + 1) (next_session_id d) (next_round_id d)
               (next_performance_id d)).

Definition insert_session (v : Z -> MemorySessions.row) : M MemorySessions.row :=
  fun d =>
    let r := v (next_session_id d) in
    inr (r, mkDb (games d) (sessions d ++ [r]) (rounds d) (performance d)
               (next_game_id d) (next_session_id d + 1) (next_round_id d)
               (next_performance_id d)).

(** [MemoryRounds.prompt] is [column.json()] without [optional], a NOT NULL
    column: the database refuses a row whose prompt is null, and nothing is
    written. *)
Definition insert_round (v : Z -> MemoryRounds.row) : M MemoryRounds.row :=
  fun d =>
    let r := v (next_round_id d) in
    match MemoryRounds.prompt r with
    | JNull => inl (mkErr INTERNAL_SERVER_ERROR "NOT NULL constraint failed: MemoryRounds.prompt")
    | _ =>
      inr (r, mkDb (games d) (sessions d) (rounds d ++ [r]) (performance d)
                 (next_game_id d) (next_session_id d) (next_round_id d + 1)
                 (next_performance_id d))
    end.

Definition insert_performance (v : Z -> MemoryPerformance.row)
  : M MemoryPerformance.row :=
  fun d =>
    let r := v (next_performance_id d) in
    inr (r, mkDb (games d) (sessions d) (rounds d) (performance d ++ [r])
               (next_game_id d) (next_session_id d) (next_round_id d)
               (next_performance_id d + 1)).

(** [update(T).set(..).where(c).returning()]: every row satisfying [c] is
    rewritten by [f] in place; the rewritten rows are returned in order. *)
Definition update_rows {A} (c : A -> sql_bool) (f : A -> A) (l : list A) : list A :=
  map (fun r => if sql_true (c r) then f r else r) l.

Definition update_games (c : MemoryGames.row -> sql_bool)
  (f : MemoryGames.row -> MemoryGames.row) : M (list MemoryGames.row) :=
  fun d =>
    inr (map f (sql_where c (games d)),
         mkDb (update_rows c f (games d)) (sessions d) (rounds d) (performance d)
              (next_game_id d) (next_session_id d) (next_round_id d)
              (next_performance_id d)).

Definition update_sessions (c : MemorySessions.row -> sql_bool)
  (f : MemorySessions.row -> MemorySessions.row) : M (list MemorySessions.row) :=
  fun d =>
    inr (map f (sql_where c (sessions d)),
         mkDb (games d) (update_rows c f (sessions d)) (rounds d) (performance d)
              (next_game_id d) (next_session_id d) (next_round_id d)
              (next_performance_id d)).

Definition update_performance (c : MemoryPerformance.row -> sql_bool)
  (f : MemoryPerformance.row -> MemoryPerformance.row)
  : M (list MemoryPerformance.row) :=
  fun d =>
    inr (map f (sql_where c (performance d)),
         mkDb (games d) (sessions d) (rounds d) (update_rows c f (performance d))
              (next_game_id d) (next_session_id d) (next_round_id d)
              (next_performance_id d)).

(** [z.string().min(1)]. *)
Definition min1 (s : string) : bool := Nat.leb 1 (String.length s).

Definition opt_all {A} (p : A -> bool) (o : option A) : bool :=
  match o with Some x => p x | None => true end.

(** [a ?? b] *)
Definition nullish {A} (a : option A) (b : A) : A :=
  match a with Some x => x | None => b end.

(** ** createGame *)

Module CreateGameInput.
Record t : Type := mk {
  name : string;
  description : option string;
  gameType : string;
  difficultyLevels : option json;
  isActive : option bool
}.
(** [z.object({ name: min(1), gameType: min(1), ... })] *)
Definition valid (i : t) : bool := min1 (name i) && min1 (gameType i).
End CreateGameInput.

Definition createGame (clk : Z) (user : option string) (input : CreateGameInput.t)
  : M MemoryGames.row :=
  _ <- zod_check (CreateGameInput.valid input) ;;
  u <- requireUser user ;;
  insert_game (fun id =>
    MemoryGames.mk id (Some u) (CreateGameInput.name input)
      (CreateGameInput.description input) (CreateGameInput.gameType input)
      (CreateGameInput.difficultyLevels input)
      (nullish (CreateGameInput.isActive input) true) clk).

(** ** updateGame *)

Module UpdateGameInput.
Record t : Type := mk {
  id : Z;
  name : option string;
  description : option string;
  gameType : option string;
  difficultyLevels : option json;
  isActive : option bool
}.
(** [name: z.string().min(1).optional()]; [gameType] is any string. *)
Definition valid (i : t) : bool := opt_all min1 (name i).
End UpdateGameInput.

(** An entry of [updateData]: a key of [rest] and its value. *)
Inductive game_field : Type :=
| set_name (s : string)
| set_description (s : string)
| set_gameType (s : string)
| set_difficultyLevels (j : json)
| set_isActive (b : bool).

(** The loop over [Object.entries(rest)] keeping the defined values, in the
    schema's key order. *)
Definition updateData (i : UpdateGameInput.t) : list game_field :=
  let opt {A} (o : option A) (k : A -> game_field) :=
    match o with Some v => [k v] | None => [] end in
  opt (UpdateGameInput.name i) set_name
  ++ opt (UpdateGameInput.description i) set_description
  ++ opt (UpdateGameInput.gameType i) set_gameType
  ++ opt (UpdateGameInput.difficultyLevels i) set_difficultyLevels
  ++ opt (UpdateGameInput.isActive i) set_isActive.

Definition set_field (f : game_field) (g : MemoryGames.row) : MemoryGames.row :=
  let 'MemoryGames.mk i o n de t dl a c := g in
  match f with
  | set_name n' => MemoryGames.mk i o n' de t dl a c
  | set_description de' => MemoryGames.mk i o n (Some de') t dl a c
  | set_gameType t' => MemoryGames.mk i o n de t' dl a c
  | set_difficultyLevels dl' => MemoryGames.mk i o n de t (Some dl') a c
  | set_isActive a' => MemoryGames.mk i o n de t dl a' c
  end.

(** [.set(updateData)] *)
Definition set_game (data : list game_field) (g : MemoryGames.row) : MemoryGames.row :=
  fold_left (fun g f => set_field f g) data g.

(** [and(eq(MemoryGames.id, id), eq(MemoryGames.ownerId, user.id))] *)
Definition owned_game (id : Z) (u : string) (g : MemoryGames.row) : sql_bool :=
  sql_and (sql_eq_int (MemoryGames.id g) id) (sql_eq_text (MemoryGames.ownerId g) (Some u)).

Definition updateGame (user : option string) (input : UpdateGameInput.t)
  : M (option MemoryGames.row) :=
  _ <- zod_check (UpdateGameInput.valid input) ;;
  u <- requireUser user ;;
  let id := UpdateGameInput.id input in
  found <- select_games (owned_game id u) ;;
  match limit1 found with
  | None => throw (mkErr NOT_FOUND "Game not found.")
  | Some existing =>
      match updateData input with
      | [] => ret (Some existing)
      | data =>
          updated <- update_games (owned_game id u) (set_game data) ;;
          ret (limit1 updated)
      end
  end.

(** ** listMyGames *)

Module ListMyGamesInput.
Record t : Type := mk { includeInactive : option bool }.
End ListMyGamesInput.

(** [input?.includeInactive ?? false] *)
Definition includeInactive_of (input : option ListMyGamesInput.t) : bool :=
  match input with
  | Some i => nullish (ListMyGamesInput.includeInactive i) false
  | None => false
  end.

Definition listMyGames (user : option string) (input : option ListMyGamesInput.t)
  : M (list MemoryGames.row) :=
  u <- requireUser user ;;
  let includeInactive := includeInactive_of input in
  gs <- select_games (fun g => sql_eq_text (MemoryGames.ownerId g) (Some u)) ;;
  ret (if includeInactive then gs else filter MemoryGames.isActive gs).

(** [or(eq(MemoryGames.ownerId, user.id), eq(MemoryGames.ownerId, null))]
    together with [eq(MemoryGames.id, gameId)]: the access filter of
    [startSession] and [upsertPerformance]. *)
Definition accessible_game (gameId : Z) (u : string) (g : MemoryGames.row) : sql_bool :=
  sql_and (sql_eq_int (MemoryGames.id g) gameId)
    (sql_or (sql_eq_text (MemoryGames.ownerId g) (Some u))
            (sql_eq_text (MemoryGames.ownerId g) None)).

(** ** startSession *)

Module StartSessionInput.
Record t : Type := mk {
  gameId : Z;
  difficulty : option string;
  meta : option json
}.
End StartSessionInput.

Definition startSession (clk : Z) (user : option string) (input : StartSessionInput.t)
  : M MemorySessions.row :=
  u <- requireUser user ;;
  found <- select_games (accessible_game (StartSessionInput.gameId input) u) ;;
  match limit1 found with
  | Some game =>
      if MemoryGames.isActive game then
        insert_session (fun id =>
          MemorySessions.mk id (StartSessionInput.gameId input) u in_progress
            0 (* totalScore: column default *)
            (StartSessionInput.difficulty input) clk
            None (* endedAt: optional column *)
            (StartSessionInput.meta input))
      else throw (mkErr NOT_FOUND "Game not available.")
  | None => throw (mkErr NOT_FOUND "Game not available.")
  end.

(** ** completeSession *)

Module CompleteSessionInput.
Record t : Type := mk {
  id : Z;
  totalScore : option Z;
  difficulty : option string;
  status : option session_status;
  meta : option json
}.
(** [totalScore: z.number().int().nonnegative().optional()] *)
Definition valid (i : t) : bool := opt_all (Z.leb 0) (totalScore i).
End CompleteSessionInput.

(** [input.meta ?? session.meta]: [z.any()] lets an explicit [null] through,
    and [??] falls back on it as on [undefined]. *)
Definition json_nullish (a : option json) (b : option json) : option json :=
  match a with None | Some JNull => b | Some j => Some j end.

(** [and(eq(MemorySessions.id, id), eq(MemorySessions.userId, user.id))] *)
Definition own_session (id : Z) (u : string) (s : MemorySessions.row) : sql_bool :=
  sql_and (sql_eq_int (MemorySessions.id s) id)
    (sql_eq_text (Some (MemorySessions.userId s)) (Some u)).

(** The [.set({...})] of [completeSession], applied to a matching row [s];
    [session] is the row found by the lookup. *)
Definition completeSession_set (clk : Z) (input : CompleteSessionInput.t)
  (session s : MemorySessions.row) : MemorySessions.row :=
  MemorySessions.mk (MemorySessions.id s) (MemorySessions.gameId s)
    (MemorySessions.userId s)
    (nullish (CompleteSessionInput.status input) completed)
    (nullish (CompleteSessionInput.totalScore input) (MemorySessions.totalScore session))
    (match CompleteSessionInput.difficulty input with
     | Some d => Some d
     | None => MemorySessions.difficulty session
     end)
    (MemorySessions.startedAt s)
    (Some clk)
    (json_nullish (CompleteSessionInput.meta input) (MemorySessions.meta session)).

Definition completeSession (clk : Z) (user : option string)
  (input : CompleteSessionInput.t) : M (option MemorySessions.row) :=
  _ <- zod_check (CompleteSessionInput.valid input) ;;
  u <- requireUser user ;;
  let id := CompleteSessionInput.id input in
  found <- select_sessions (own_session id u) ;;
  match limit1 found with
  | None => throw (mkErr NOT_FOUND "Session not found.")
  | Some session =>
      updated <- update_sessions (fun s => sql_eq_int (MemorySessions.id s) id)
                   (completeSession_set clk input session) ;;
      ret (limit1 updated)
  end.

(** ** recordRound *)

Module RecordRoundInput.
Record t : Type := mk {
  sessionId : Z;
  roundNumber : option Z;
  prompt : json;  (* [z.any()], stored in a NOT NULL json column *)
  response : option json;
  isCorrect : option bool;
  score : option Z
}.
(** [roundNumber: positive().optional()], [score: nonnegative().optional()] *)
Definition valid (i : t) : bool :=
  opt_all (Z.ltb 0) (roundNumber i) && opt_all (Z.leb 0) (score i).
End RecordRoundInput.

Definition recordRound (clk : Z) (user : option string) (input : RecordRoundInput.t)
  : M MemoryRounds.row :=
  _ <- zod_check (RecordRoundInput.valid input) ;;
  u <- requireUser user ;;
  found <- select_sessions (own_session (RecordRoundInput.sessionId input) u) ;;
  match limit1 found with
  | None => throw (mkErr NOT_FOUND "Session not found.")
  | Some _ =>
      insert_round (fun id =>
        MemoryRounds.mk id (RecordRoundInput.sessionId input)
          (nullish (RecordRoundInput.roundNumber input) 1)
          (RecordRoundInput.prompt input) (RecordRoundInput.response input)
          (nullish (RecordRoundInput.isCorrect input) false)
          (nullish (RecordRoundInput.score input) 0) clk)
  end.

(** ** upsertPerformance *)

Module UpsertPerformanceInput.
Record t : Type := mk {
  gameId : Z;
  totalSessions : option Z;
  averageScore : option Q;
  bestScore : option Q;
  difficultyPreference : option string
}.
Definition valid (i : t) : bool :=
  opt_all (Z.leb 0) (totalSessions i)
  && opt_all (fun q => Qle_bool 0 q) (averageScore i)
  && opt_all (fun q => Qle_bool 0 q) (bestScore i).
End UpsertPerformanceInput.

(** [input.f ?? existing?.f ?? 0] *)
Definition merge_field {A} (supplied : option A)
  (existing : option MemoryPerformance.row) (f : MemoryPerformance.row -> A) (dflt : A) : A :=
  match supplied with
  | Some v => v
  | None => match existing with Some e => f e | None => dflt end
  end.

(** [baseValues] (the id is the row's own, or the next one on insert). *)
Definition baseValues (clk : Z) (u : string) (input : UpsertPerformanceInput.t)
  (existing : option MemoryPerformance.row) (id : Z) : MemoryPerformance.row :=
  MemoryPerformance.mk id u (UpsertPerformanceInput.gameId input)
    (merge_field (UpsertPerformanceInput.totalSessions input) existing
       MemoryPerformance.totalSessions 0)
    (merge_field (UpsertPerformanceInput.averageScore input) existing
       MemoryPerformance.averageScore 0%Q)
    (merge_field (UpsertPerformanceInput.bestScore input) existing
       MemoryPerformance.bestScore 0%Q)
    (match UpsertPerformanceInput.difficultyPreference input with
     | Some p => Some p
     | None => match existing with
               | Some e => MemoryPerformance.difficultyPreference e
               | None => None
               end
     end)
    clk.

(** [and(eq(MemoryPerformance.gameId, gameId), eq(MemoryPerformance.userId, user.id))] *)
Definition perf_of (gameId : Z) (u : string) (p : MemoryPerformance.row) : sql_bool :=
  sql_and (sql_eq_int (MemoryPerformance.gameId p) gameId)
    (sql_eq_text (Some (MemoryPerformance.userId p)) (Some u)).

Definition upsertPerformance (clk : Z) (user : option string)
  (input : UpsertPerformanceInput.t) : M (option MemoryPerformance.row) :=
  _ <- zod_check (UpsertPerformanceInput.valid input) ;;
  u <- requireUser user ;;
  let gameId := UpsertPerformanceInput.gameId input in
  found <- select_games (accessible_game gameId u) ;;
  match limit1 found with
  | None => throw (mkErr NOT_FOUND "Game not found.")
  | Some _ =>
      ex <- select_performance (perf_of gameId u) ;;
      let existing := limit1 ex in
      match existing with
      | Some e =>
          updated <- update_performance
            (fun p => sql_eq_int (MemoryPerformance.id p) (MemoryPerformance.id e))
            (fun p => baseValues clk u input existing (MemoryPerformance.id p)) ;;
          ret (limit1 updated)
      | None =>
          r <- insert_performance (baseValues clk u input None) ;;
          ret (Some r)
      end
  end.

(** ** The seven actions as one request type *)

Inductive request : Type :=
| RCreateGame (i : CreateGameInput.t)
| RUpdateGame (i : UpdateGameInput.t)
| RListMyGames (i : option ListMyGamesInput.t)
| RStartSession (i : StartSessionInput.t)
| RCompleteSession (i : CompleteSessionInput.t)
| RRecordRound (i : RecordRoundInput.t)
| RUpsertPerformance (i : UpsertPerformanceInput.t).

Inductive response : Type :=
| GameResp (g : option MemoryGames.row)
| GamesResp (gs : list MemoryGames.row)
| SessionResp (s : option MemorySessions.row)
| RoundResp (r : MemoryRounds.row)
| PerformanceResp (p : option MemoryPerformance.row).

Definition map_M {A B} (f : A -> B) (m : M A) : M B := x <- m ;; ret (f x).

Definition server (clk : Z) (user : option string) (r : request) : M response :=
  match r with
  | RCreateGame i => map_M (fun g => GameResp (Some g)) (createGame clk user i)
  | RUpdateGame i => map_M GameResp (updateGame user i)
  | RListMyGames i => map_M GamesResp (listMyGames user i)
  | RStartSession i => map_M (fun s => SessionResp (Some s)) (startSession clk user i)
  | RCompleteSession i => map_M SessionResp (completeSession clk user i)
  | RRecordRound i => map_M RoundResp (recordRound clk user i)
  | RUpsertPerformance i => map_M PerformanceResp (upsertPerformance clk user i)
  end.

(** One request, handled to completion (requests run one after another). *)
Definition step (d : db) (call : Z * option string * request) : db :=
  let '(clk, user, r) := call in
  match server clk user r d with
  | inl _ => d
  | inr (_, d') => d'
  end.

Definition run (d : db) (calls : list (Z * option string * request)) : db :=
  fold_left step calls d.

(** * Properties *)

(** ** Three-valued conditions *)

Lemma sql_true_and a b :
  sql_true (sql_and a b) = true <-> sql_true a = true /\ sql_true b = true.
Proof. destruct a as [[]|], b as [[]|]; simpl; intuition congruence. Qed.

Lemma sql_true_or a b :
  sql_true (sql_or a b) = true <-> sql_true a = true \/ sql_true b = true.
Proof. destruct a as [[]|], b as [[]|]; simpl; intuition congruence. Qed.

Lemma sql_true_eq_int a b : sql_true (sql_eq_int a b) = true <-> a = b.
Proof. unfold sql_eq_int, sql_true. rewrite <- Z.eqb_eq. destruct (a =? b); tauto. Qed.

Lemma sql_true_eq_text a b :
  sql_true (sql_eq_text a b) = true <-> exists x, a = Some x /\ b = Some x.
Proof.
  destruct a as [x|], b as [y|]; simpl.
  - destruct (String.eqb_spec x y) as [->|Hne]; split; intros H; eauto;
      try discriminate.
    destruct H as [z [Hx Hy]]. inversion Hx; inversion Hy; subst; congruence.
  - split; [discriminate | intros [z [_ H]]; discriminate].
  - split; [discriminate | intros [z [H _]]; discriminate].
  - split; [discriminate | intros [z [H _]]; discriminate].
Qed.

(** A comparison with NULL is never TRUE. *)
Lemma sql_eq_text_null a : sql_true (sql_eq_text a None) = false.
Proof. destruct a; reflexivity. Qed.

Lemma owned_game_true id u g :
  sql_true (owned_game id u g) = true <->
  MemoryGames.id g = id /\ MemoryGames.ownerId g = Some u.
Proof.
  unfold owned_game. rewrite sql_true_and, sql_true_eq_int, sql_true_eq_text.
  split; [intros [? [x [? Hx]]]; inversion Hx; subst; auto
         | intros [? ?]; eauto].
Qed.

(** The access filter of [startSession] and [upsertPerformance] selects
    exactly the caller's own games: its [eq(ownerId, null)] branch is
    never TRUE. *)
Lemma accessible_game_true id u g :
  sql_true (accessible_game id u g) = true <->
  MemoryGames.id g = id /\ MemoryGames.ownerId g = Some u.
Proof.
  unfold accessible_game.
  rewrite sql_true_and, sql_true_or, sql_eq_text_null, sql_true_eq_int,
    sql_true_eq_text.
  split.
  - intros [? [[x [? Hx]] | H]]; [inversion Hx; subst; auto | discriminate].
  - intros [? ?]; eauto.
Qed.

Lemma own_session_true id u s :
  sql_true (own_session id u s) = true <->
  MemorySessions.id s = id /\ MemorySessions.userId s = u.
Proof.
  unfold own_session. rewrite sql_true_and, sql_true_eq_int, sql_true_eq_text.
  split; [intros [? [x [Hs Hx]]]; inversion Hs; inversion Hx; subst; auto
         | intros [? ?]; subst; eauto].
Qed.

Lemma perf_of_true g u p :
  sql_true (perf_of g u p) = true <->
  MemoryPerformance.gameId p = g /\ MemoryPerformance.userId p = u.
Proof.
  unfold perf_of. rewrite sql_true_and, sql_true_eq_int, sql_true_eq_text.
  split; [intros [? [x [Hs Hx]]]; inversion Hs; inversion Hx; subst; auto
         | intros [? ?]; subst; eauto].
Qed.

(** ** Lists of rows *)

Lemma in_sql_where {A} (c : A -> sql_bool) l x :
  In x (sql_where c l) <-> In x l /\ sql_true (c x) = true.
Proof. apply filter_In. Qed.

(** [limit1] finds the only row satisfying the condition. *)
Lemma limit1_unique {A} (c : A -> sql_bool) l x :
  In x l -> sql_true (c x) = true ->
  (forall y, In y l -> sql_true (c y) = true -> y = x) ->
  limit1 (sql_where c l) = Some x.
Proof.
  intros Hin Hc Huniq.
  assert (Hx : In x (sql_where c l)) by (apply in_sql_where; auto).
  destruct (sql_where c l) as [|y rest] eqn:E; [destruct Hx|].
  simpl. f_equal. assert (Hy : In y (sql_where c l)) by (rewrite E; left; auto).
  apply in_sql_where in Hy. apply Huniq; tauto.
Qed.

Lemma limit1_none {A} (c : A -> sql_bool) l :
  (forall y, In y l -> sql_true (c y) = false) -> limit1 (sql_where c l) = None.
Proof.
  intros H. unfold sql_where. induction l as [|a l IH]; simpl; auto.
  rewrite H by (left; auto). apply IH. intros; apply H; right; auto.
Qed.

Lemma limit1_in {A} (c : A -> sql_bool) l x :
  limit1 (sql_where c l) = Some x -> In x l /\ sql_true (c x) = true.
Proof.
  intros H. apply in_sql_where. destruct (sql_where c l); inversion H; left; auto.
Qed.

(** Rows of a table with pairwise distinct ids are determined by the id. *)
Lemma NoDup_map_inj {A B} (f : A -> B) l x y :
  NoDup (map f l) -> In x l -> In y l -> f x = f y -> x = y.
Proof.
  induction l as [|a l IH]; simpl; [tauto|].
  intros Hnd Hx Hy Hf. inversion Hnd as [|? ? Hnotin Hnd']; subst.
  destruct Hx as [<-|Hx], Hy as [<-|Hy]; auto.
  - exfalso; apply Hnotin. rewrite Hf. apply in_map; auto.
  - exfalso; apply Hnotin. rewrite <- Hf. apply in_map; auto.
Qed.

(** ** A sample store *)

Definition g_recall := MemoryGames.mk 1 (Some "alice") "Recall" None "sequence" None true 0.
Definition g_shared := MemoryGames.mk 2 None "Shared" None "pattern" None true 0.
Definition g_bob := MemoryGames.mk 3 (Some "bob") "Words" None "words" None true 0.
Definition g_old := MemoryGames.mk 4 (Some "alice") "Old" None "words" None false 0.
Definition s_done :=
  MemorySessions.mk 1 1 "alice" completed 10 None 100 (Some 200) None.

Definition sample_db : db :=
  mkDb [g_recall; g_shared; g_bob; g_old] [s_done] [] [] 5 2 1 1.

Example listMyGames_sample :
  listMyGames (Some "alice") None sample_db = inr ([g_recall], sample_db).
Proof. reflexivity. Qed.

Example listMyGames_sample_inactive :
  listMyGames (Some "alice") (Some (ListMyGamesInput.mk (Some true))) sample_db
  = inr ([g_recall; g_old], sample_db).
Proof. reflexivity. Qed.

(** ** C5: listMyGames returns the caller's own games *)

(** C5: for every caller [u] and every game [g], [listMyGames] includes [g]
    exactly when [g] is in the store, is owned by [u], and either
    [includeInactive] is set or [g] is active. In particular it never
    includes a game of another user or a system-owned game. It reads
    without writing. *)
Theorem listMyGames_includes_iff (u : string) (inp : option ListMyGamesInput.t) (d : db) :
  exists gs, listMyGames (Some u) inp d = inr (gs, d) /\
  forall g, In g gs <->
    In g (games d) /\ MemoryGames.ownerId g = Some u /\
    (includeInactive_of inp = true \/ MemoryGames.isActive g = true).
Proof.
  unfold listMyGames, bind, ret, requireUser, select_games; simpl.
  eexists; split; [reflexivity|]. intros g.
  destruct (includeInactive_of inp).
  - rewrite in_sql_where, sql_true_eq_text.
    split; [intros [? [x [? Hx]]]; inversion Hx; subst; auto
           | intros [? [? _]]; eauto].
  - rewrite filter_In, in_sql_where, sql_true_eq_text.
    split.
    + intros [[? [x [? Hx]]] ?]; inversion Hx; subst; auto.
    + intros [? [? [H|H]]]; [discriminate|eauto].
Qed.

(** ** C7: updateGame with no field is a no-op *)

(** C7: when the game [g] is owned by the caller (game ids being distinct,
    as the primary key makes them), [updateGame] with none of [name],
    [description], [gameType], [difficultyLevels], [isActive] returns [g]
    itself and leaves the database as it was. *)
Theorem updateGame_empty_noop (u : string) (input : UpdateGameInput.t) (d : db)
  (g : MemoryGames.row) :
  In g (games d) ->
  MemoryGames.ownerId g = Some u ->
  UpdateGameInput.id input = MemoryGames.id g ->
  NoDup (map MemoryGames.id (games d)) ->
  UpdateGameInput.name input = None ->
  UpdateGameInput.description input = None ->
  UpdateGameInput.gameType input = None ->
  UpdateGameInput.difficultyLevels input = None ->
  UpdateGameInput.isActive input = None ->
  updateGame (Some u) input d = inr (Some g, d).
Proof.
  intros Hin Hown Hid Hnd Hn Hde Ht Hdl Ha.
  destruct input as [id n de t dl a]; simpl in *; subst.
  unfold updateGame, UpdateGameInput.valid, zod_check, bind, ret,
    requireUser, select_games; simpl.
  rewrite (limit1_unique _ _ g Hin).
  - reflexivity.
  - apply owned_game_true; auto.
  - intros y Hy Hc. apply owned_game_true in Hc as [Hc _].
    apply (NoDup_map_inj MemoryGames.id (games d)); auto.
Qed.

Lemma updateGame_empty_noop_witness :
  updateGame (Some "alice") (UpdateGameInput.mk 1 None None None None None) sample_db
  = inr (Some g_recall, sample_db).
Proof.
  apply (updateGame_empty_noop "alice" _ sample_db g_recall);
    simpl; auto; repeat constructor; simpl; intuition discriminate.
Defined.

(** ** C8: updateGame on an absent or foreign game *)

(** C8: when no game with the requested id is owned by the caller (none
    exists, or it belongs to someone else), [updateGame] fails with the
    same error, NOT_FOUND "Game not found.", and the database is left as
    it was. *)
Theorem updateGame_not_owned_not_found (u : string) (input : UpdateGameInput.t) (d : db) :
  UpdateGameInput.valid input = true ->
  (forall g, In g (games d) -> MemoryGames.id g = UpdateGameInput.id input ->
             MemoryGames.ownerId g <> Some u) ->
  updateGame (Some u) input d = inl (mkErr NOT_FOUND "Game not found.") /\
  (forall clk, step d (clk, Some u, RUpdateGame input) = d).
Proof.
  intros Hvalid Hnone.
  assert (E : updateGame (Some u) input d = inl (mkErr NOT_FOUND "Game not found.")).
  { unfold updateGame, zod_check, bind, ret, requireUser, select_games.
    rewrite Hvalid. simpl.
    rewrite limit1_none; [reflexivity|].
    intros y Hy. destruct (sql_true (owned_game (UpdateGameInput.id input) u y)) eqn:Hc;
      [|reflexivity].
    apply owned_game_true in Hc as [Hc1 Hc2]. exfalso; eapply Hnone; eauto. }
  split; [exact E|]. intros clk. unfold step, server, map_M, bind at 1.
  rewrite E. reflexivity.
Qed.

Lemma updateGame_not_owned_not_found_witness :
  updateGame (Some "alice") (UpdateGameInput.mk 3 (Some "Mine") None None None None)
    sample_db = inl (mkErr NOT_FOUND "Game not found.") /\
  updateGame (Some "alice") (UpdateGameInput.mk 9 (Some "Mine") None None None None)
    sample_db = inl (mkErr NOT_FOUND "Game not found.").
Proof.
  split.
  - apply (updateGame_not_owned_not_found "alice" _ sample_db); [reflexivity|].
    simpl. intros g Hg Hid.
    destruct Hg as [<-|[<-|[<-|[<-|[]]]]]; simpl in *; congruence.
  - apply (updateGame_not_owned_not_found "alice" _ sample_db); [reflexivity|].
    simpl. intros g Hg Hid.
    destruct Hg as [<-|[<-|[<-|[<-|[]]]]]; simpl in *; congruence.
Defined.

(** ** C1: startSession on a system-owned game *)

Example startSession_own_game :
  exists s d', startSession 500 (Some "alice") (StartSessionInput.mk 1 None None) sample_db
               = inr (s, d') /\ MemorySessions.status s = in_progress.
Proof. do 2 eexists; split; reflexivity. Qed.

Example startSession_inactive_game :
  startSession 500 (Some "alice") (StartSessionInput.mk 4 None None) sample_db
  = inl (mkErr NOT_FOUND "Game not available.").
Proof. reflexivity. Qed.

(** C1 (the system-owned case): when every game with the requested id is
    system-owned (owner NULL), [startSession] fails with NOT_FOUND "Game
    not available." for every caller, active game or not: the filter's
    [eq(MemoryGames.ownerId, null)] compares with NULL and is never TRUE. *)
Theorem startSession_system_game_not_available (clk : Z) (u : string)
  (input : StartSessionInput.t) (d : db) :
  (forall g, In g (games d) -> MemoryGames.id g = StartSessionInput.gameId input ->
             MemoryGames.ownerId g = None) ->
  startSession clk (Some u) input d = inl (mkErr NOT_FOUND "Game not available.").
Proof.
  intros Hsys.
  unfold startSession, bind, ret, requireUser, select_games; simpl.
  rewrite limit1_none; [reflexivity|].
  intros y Hy.
  destruct (sql_true (accessible_game (StartSessionInput.gameId input) u y)) eqn:Hc;
    [|reflexivity].
  apply accessible_game_true in Hc as [Hid Hown].
  rewrite (Hsys y Hy Hid) in Hown. discriminate.
Qed.

Lemma startSession_system_game_not_available_witness :
  MemoryGames.isActive g_shared = true /\
  startSession 500 (Some "alice") (StartSessionInput.mk 2 None None) sample_db
  = inl (mkErr NOT_FOUND "Game not available.").
Proof.
  split; [reflexivity|].
  apply startSession_system_game_not_available.
  simpl. intros g Hg Hid.
  destruct Hg as [<-|[<-|[<-|[<-|[]]]]]; simpl in *; congruence.
Defined.

(** ** C3: upsertPerformance *)

Definition up (gameId : Z) (ts : option Z) (avg best : option Q) :=
  UpsertPerformanceInput.mk gameId ts avg best None.

(** The spec's sequence on a game the caller owns: the merge policy. *)
Example upsertPerformance_merge_own_game :
  match upsertPerformance 10 (Some "alice") (up 1 (Some 5) None None) sample_db with
  | inr (Some p1, d1) =>
      MemoryPerformance.totalSessions p1 = 5 /\
      MemoryPerformance.averageScore p1 = 0%Q /\
      MemoryPerformance.bestScore p1 = 0%Q /\
      match upsertPerformance 20 (Some "alice") (up 1 None None (Some 90%Q)) d1 with
      | inr (Some p2, d2) =>
          MemoryPerformance.totalSessions p2 = 5 /\
          MemoryPerformance.bestScore p2 = 90%Q /\
          MemoryPerformance.averageScore p2 = 0%Q /\
          MemoryPerformance.updatedAt p2 = 20 /\
          performance d2 = [p2]
      | _ => False
      end
  | _ => False
  end.
Proof. vm_compute. repeat split. Qed.

(** C3 (the system-owned case): when every game with the requested id is
    system-owned, [upsertPerformance] fails with NOT_FOUND "Game not
    found." for every caller and writes no Performance row, so no merge
    takes place for such a game. *)
Theorem upsertPerformance_system_game_not_found (clk : Z) (u : string)
  (input : UpsertPerformanceInput.t) (d : db) :
  UpsertPerformanceInput.valid input = true ->
  (forall g, In g (games d) -> MemoryGames.id g = UpsertPerformanceInput.gameId input ->
             MemoryGames.ownerId g = None) ->
  upsertPerformance clk (Some u) input d = inl (mkErr NOT_FOUND "Game not found.").
Proof.
  intros Hvalid Hsys.
  unfold upsertPerformance, zod_check, bind, ret, requireUser, select_games.
  rewrite Hvalid; simpl.
  rewrite limit1_none; [reflexivity|].
  intros y Hy.
  destruct (sql_true (accessible_game (UpsertPerformanceInput.gameId input) u y)) eqn:Hc;
    [|reflexivity].
  apply accessible_game_true in Hc as [Hid Hown].
  rewrite (Hsys y Hy Hid) in Hown. discriminate.
Qed.

Lemma upsertPerformance_system_game_not_found_witness :
  upsertPerformance 10 (Some "alice") (up 2 (Some 5) None None) sample_db
  = inl (mkErr NOT_FOUND "Game not found.").
Proof.
  apply upsertPerformance_system_game_not_found; [reflexivity|].
  simpl. intros g Hg Hid.
  destruct Hg as [<-|[<-|[<-|[<-|[]]]]]; simpl in *; congruence.
Defined.

(** ** Updates by primary key *)

Lemma sql_where_none {A} (c : A -> sql_bool) l :
  (forall y, In y l -> sql_true (c y) = false) -> sql_where c l = [].
Proof.
  intros H. unfold sql_where. induction l as [|a l IH]; simpl; auto.
  rewrite H by (left; auto). apply IH. intros; apply H; right; auto.
Qed.

(** With distinct ids, [where(eq(T.id, x.id))] selects [x] alone. *)
Lemma sql_where_by_id {A} (idf : A -> Z) l x :
  NoDup (map idf l) -> In x l ->
  sql_where (fun y => sql_eq_int (idf y) (idf x)) l = [x].
Proof.
  induction l as [|a l IH]; simpl; [tauto|].
  intros Hnd Hin. inversion Hnd as [|? ? Hnotin Hnd']; subst.
  destruct Hin as [<-|Hin].
  - unfold sql_eq_int at 1; simpl. rewrite Z.eqb_refl. f_equal.
    apply sql_where_none. intros y Hy.
    unfold sql_eq_int; simpl. destruct (Z.eqb_spec (idf y) (idf a)) as [E|]; auto.
    exfalso; apply Hnotin. rewrite <- E. apply in_map; auto.
  - unfold sql_eq_int at 1; simpl. destruct (Z.eqb_spec (idf a) (idf x)) as [E|_].
    + exfalso; apply Hnotin. rewrite E. apply in_map; auto.
    + apply IH; auto.
Qed.

Lemma in_update_rows {A} (c : A -> sql_bool) (f : A -> A) l x :
  In x l -> sql_true (c x) = true -> In (f x) (update_rows c f l).
Proof.
  intros Hin Hc. unfold update_rows. apply in_map_iff.
  exists x. rewrite Hc. auto.
Qed.

Lemma map_update_rows {A B} (key : A -> B) (c : A -> sql_bool) (f : A -> A) l :
  (forall r, In r l -> sql_true (c r) = true -> key (f r) = key r) ->
  map key (update_rows c f l) = map key l.
Proof.
  induction l as [|a l IH]; simpl; auto. intros H.
  rewrite IH by (intros; apply H; auto).
  destruct (sql_true (c a)) eqn:E; auto. rewrite H; auto.
Qed.

(** [completeSession] on the caller's own session [s]. *)
Lemma completeSession_own (clk : Z) (u : string) (input : CompleteSessionInput.t)
  (d : db) (s : MemorySessions.row) :
  CompleteSessionInput.valid input = true ->
  In s (sessions d) ->
  MemorySessions.userId s = u ->
  CompleteSessionInput.id input = MemorySessions.id s ->
  NoDup (map MemorySessions.id (sessions d)) ->
  exists d', completeSession clk (Some u) input d
             = inr (Some (completeSession_set clk input s s), d') /\
             In (completeSession_set clk input s s) (sessions d').
Proof.
  intros Hv Hin Hu Hid Hnd.
  unfold completeSession, zod_check, bind, ret, requireUser, select_sessions,
    update_sessions.
  rewrite Hv; simpl.
  rewrite (limit1_unique _ _ s Hin).
  - rewrite Hid, (sql_where_by_id MemorySessions.id _ s Hnd Hin). simpl.
    eexists; split; [reflexivity|]. simpl.
    apply in_update_rows; auto. apply sql_true_eq_int; auto.
  - apply own_session_true; auto.
  - intros y Hy Hc. apply own_session_true in Hc as [Hc _].
    apply (NoDup_map_inj MemorySessions.id (sessions d)); congruence.
Qed.

(** ** C2: completeSession always stamps [endedAt] *)

(** C2: for a session [s] of the caller (session ids being distinct, as the
    primary key makes them), [completeSession] succeeds and the stored and
    returned row has [endedAt] set to the current time and [status] set to
    the supplied status, [completed] when none is supplied, whatever that
    status is ([abandoned] and [in_progress] included). *)
Theorem completeSession_sets_endedAt (clk : Z) (u : string)
  (input : CompleteSessionInput.t) (d : db) (s : MemorySessions.row) :
  CompleteSessionInput.valid input = true ->
  In s (sessions d) ->
  MemorySessions.userId s = u ->
  CompleteSessionInput.id input = MemorySessions.id s ->
  NoDup (map MemorySessions.id (sessions d)) ->
  exists s' d', completeSession clk (Some u) input d = inr (Some s', d') /\
    In s' (sessions d') /\
    MemorySessions.id s' = MemorySessions.id s /\
    MemorySessions.endedAt s' = Some clk /\
    MemorySessions.status s' = nullish (CompleteSessionInput.status input) completed.
Proof.
  intros Hv Hin Hu Hid Hnd.
  destruct (completeSession_own clk u input d s Hv Hin Hu Hid Hnd) as [d' [E Hin']].
  exists (completeSession_set clk input s s), d'. repeat split; auto.
Qed.

Lemma completeSession_sets_endedAt_witness :
  exists s' d',
    completeSession 300 (Some "alice")
      (CompleteSessionInput.mk 1 None None (Some in_progress) None) sample_db
    = inr (Some s', d') /\
    In s' (sessions d') /\ MemorySessions.id s' = 1 /\
    MemorySessions.endedAt s' = Some 300 /\ MemorySessions.status s' = in_progress.
Proof.
  apply (completeSession_sets_endedAt 300 "alice"
           (CompleteSessionInput.mk 1 None None (Some in_progress) None) sample_db s_done);
    simpl; auto. repeat constructor; simpl; tauto.
Defined.

(** ** Effects of one request on the tables *)

Ltac unfold_M H :=
  unfold server, createGame, updateGame, listMyGames, startSession,
    completeSession, recordRound, upsertPerformance in H;
  unfold map_M, zod_check, requireUser, select_games,
    select_sessions, select_performance, insert_game, insert_session,
    insert_round, insert_performance, update_games, update_sessions,
    update_performance in H;
  unfold bind, ret, throw in H.

(** Split every case of a successful run [H : m d = inr (x, d')]. *)
Ltac inv_M H :=
  simpl in H;
  repeat (match type of H with
          | context [match ?e with _ => _ end] =>
              tryif (match e with context [match _ with _ => _ end] => idtac end)
              then fail else (destruct e eqn:?; simpl in H)
          end);
  try discriminate H;
  inversion H; subst; clear H.

Definition session_key (s : MemorySessions.row) : Z * string :=
  (MemorySessions.id s, MemorySessions.userId s).

(** A request only appends sessions or rewrites them in place, keeping
    each row's id and userId. *)
Lemma server_session_keys clk user r d x d' :
  server clk user r d = inr (x, d') ->
  exists ext, map session_key (sessions d') = (map session_key (sessions d) ++ ext)%list.
Proof.
  intros H. destruct r as [i|i|i|i|i|i|i]; unfold_M H; inv_M H; simpl;
    try (exists []; rewrite app_nil_r; reflexivity).
  - eexists; rewrite map_app; reflexivity.
  - exists []; rewrite app_nil_r. apply map_update_rows. reflexivity.
Qed.

Lemma step_session_keys (d : db) (call : Z * option string * request) :
  exists ext, map session_key (sessions (step d call)) = (map session_key (sessions d) ++ ext)%list.
Proof.
  destruct call as [[clk user] r]. unfold step.
  destruct (server clk user r d) as [e|[x d']] eqn:H;
    [exists []; rewrite app_nil_r; reflexivity|].
  eapply server_session_keys; eauto.
Qed.

Lemma run_session_keys (d : db) (calls : list (Z * option string * request)) :
  exists ext, map session_key (sessions (run d calls)) = (map session_key (sessions d) ++ ext)%list.
Proof.
  revert d; induction calls as [|c calls IH]; intros d; simpl.
  - exists []; rewrite app_nil_r; reflexivity.
  - destruct (step_session_keys d c) as [e1 E1].
    destruct (IH (step d c)) as [e2 E2].
    exists (e1 ++ e2)%list. unfold run in *. rewrite E2, E1, app_assoc. reflexivity.
Qed.

(** ** C9: what completeSession keeps, and userId is never rewritten *)

(** C9: for a session [s] of the caller (session ids distinct),
    [completeSession] keeps [userId], [gameId] and [startedAt], and keeps
    [totalScore], [difficulty] and [meta] when the input omits them. And
    under every sequence of requests, from any database, the sessions
    table only grows at its end and every row keeps its (id, userId)
    pair: no request changes a session's userId. *)
Theorem completeSession_keeps_fields (clk : Z) (u : string)
  (input : CompleteSessionInput.t) (d : db) (s : MemorySessions.row) :
  CompleteSessionInput.valid input = true ->
  In s (sessions d) ->
  MemorySessions.userId s = u ->
  CompleteSessionInput.id input = MemorySessions.id s ->
  NoDup (map MemorySessions.id (sessions d)) ->
  (exists s' d', completeSession clk (Some u) input d = inr (Some s', d') /\
     In s' (sessions d') /\
     MemorySessions.id s' = MemorySessions.id s /\
     MemorySessions.userId s' = MemorySessions.userId s /\
     MemorySessions.gameId s' = MemorySessions.gameId s /\
     MemorySessions.startedAt s' = MemorySessions.startedAt s /\
     (CompleteSessionInput.totalScore input = None ->
      MemorySessions.totalScore s' = MemorySessions.totalScore s) /\
     (CompleteSessionInput.difficulty input = None ->
      MemorySessions.difficulty s' = MemorySessions.difficulty s) /\
     (CompleteSessionInput.meta input = None ->
      MemorySessions.meta s' = MemorySessions.meta s)) /\
  (forall (d0 : db) (calls : list (Z * option string * request)),
     exists ext, map session_key (sessions (run d0 calls))
                 = (map session_key (sessions d0) ++ ext)%list).
Proof.
  intros Hv Hin Hu Hid Hnd. split; [|exact run_session_keys].
  destruct (completeSession_own clk u input d s Hv Hin Hu Hid Hnd) as [d' [E Hin']].
  exists (completeSession_set clk input s s), d'.
  unfold completeSession_set; simpl.
  repeat split; auto; intros Hnone; rewrite Hnone; reflexivity.
Qed.

Lemma completeSession_keeps_fields_witness :
  MemorySessions.userId s_done = "alice" /\
  exists s' d',
    completeSession 300 (Some "alice")
      (CompleteSessionInput.mk 1 None None None None) sample_db
    = inr (Some s', d') /\ MemorySessions.totalScore s' = 10.
Proof.
  split; [reflexivity|].
  destruct (completeSession_keeps_fields 300 "alice"
              (CompleteSessionInput.mk 1 None None None None) sample_db s_done)
    as [[s' [d' [E [_ [_ [_ [_ [_ [Hts _]]]]]]]]] _];
    simpl; auto; [repeat constructor; simpl; tauto|].
  exists s', d'. split; [exact E|]. rewrite Hts; reflexivity.
Defined.

(** ** C6: recordRound has no status gate *)

Lemma limit1_some {A} (c : A -> sql_bool) l x :
  In x l -> sql_true (c x) = true -> exists y, limit1 (sql_where c l) = Some y.
Proof.
  intros Hin Hc. assert (Hx : In x (sql_where c l)) by (apply in_sql_where; auto).
  destruct (sql_where c l); [destruct Hx|]. eexists; reflexivity.
Qed.

(** C6 (amended): for any session [s] of the caller, whatever its status
    ([completed] and [abandoned] included), [recordRound] on [s.id] with a
    non-null [prompt] succeeds and appends one Round row, with
    [roundNumber] 1, [isCorrect] false and [score] 0 when they are
    omitted. *)
Theorem recordRound_ignores_status (clk : Z) (u : string) (input : RecordRoundInput.t)
  (d : db) (s : MemorySessions.row) :
  RecordRoundInput.valid input = true ->
  RecordRoundInput.prompt input <> JNull ->
  In s (sessions d) ->
  MemorySessions.userId s = u ->
  RecordRoundInput.sessionId input = MemorySessions.id s ->
  let r := MemoryRounds.mk (next_round_id d) (MemorySessions.id s)
             (nullish (RecordRoundInput.roundNumber input) 1)
             (RecordRoundInput.prompt input) (RecordRoundInput.response input)
             (nullish (RecordRoundInput.isCorrect input) false)
             (nullish (RecordRoundInput.score input) 0) clk in
  exists d', recordRound clk (Some u) input d = inr (r, d') /\
             rounds d' = (rounds d ++ [r])%list.
Proof.
  intros Hv Hp Hin Hu Hid r.
  unfold recordRound, zod_check, bind, ret, requireUser, select_sessions, insert_round.
  rewrite Hv; simpl.
  destruct (limit1_some (own_session (RecordRoundInput.sessionId input) u)
              (sessions d) s Hin) as [y Hy];
    [apply own_session_true; auto|].
  rewrite Hy. simpl.
  destruct (RecordRoundInput.prompt input) eqn:Ep; [congruence| ..];
    eexists; split; subst r; rewrite ?Ep, ?Hid; reflexivity.
Qed.

Definition round_input :=
  RecordRoundInput.mk 1 None (JArr [JNum 1; JNum 2; JNum 3]) None (Some true) (Some 10).

Lemma recordRound_ignores_status_witness :
  MemorySessions.status s_done = completed /\
  exists d', recordRound 400 (Some "alice") round_input sample_db
             = inr (MemoryRounds.mk 1 1 1 (JArr [JNum 1; JNum 2; JNum 3]) None true 10 400, d')
             /\ rounds d' = [MemoryRounds.mk 1 1 1 (JArr [JNum 1; JNum 2; JNum 3]) None true 10 400].
Proof.
  split; [reflexivity|].
  exact (recordRound_ignores_status 400 "alice" round_input sample_db s_done
           eq_refl ltac:(discriminate) (or_introl eq_refl) eq_refl eq_refl).
Defined.

(** C6, as first stated, fails: [z.any()] lets [prompt: null] through the
    input check, so on alice's own session 1 (status [completed]) the call
    passes the session lookup and reaches the insert, which the NOT NULL
    [prompt] column refuses; no round is written. *)
Lemma recordRound_null_prompt_refused :
  In s_done (sessions sample_db) /\ MemorySessions.userId s_done = "alice" /\
  RecordRoundInput.valid (RecordRoundInput.mk 1 None JNull None None None) = true /\
  recordRound 400 (Some "alice") (RecordRoundInput.mk 1 None JNull None None None) sample_db
  = inl (mkErr INTERNAL_SERVER_ERROR "NOT NULL constraint failed: MemoryRounds.prompt").
Proof. repeat split; [left; reflexivity | reflexivity ..]. Qed.

(** ** C4: at most one Performance row per (userId, gameId) *)

Definition perf_key (p : MemoryPerformance.row) : string * Z :=
  (MemoryPerformance.userId p, MemoryPerformance.gameId p).

(** The invariant kept by every request: distinct keys, distinct ids, and
    every id below the autoincrement counter. *)
Definition perf_inv (d : db) : Prop :=
  NoDup (map perf_key (performance d)) /\
  NoDup (map MemoryPerformance.id (performance d)) /\
  Forall (fun i => i < next_performance_id d) (map MemoryPerformance.id (performance d)).

(** Only [upsertPerformance] writes the Performance table. *)
Lemma server_perf_frame clk user r d x d' :
  server clk user r d = inr (x, d') ->
  (forall i, r <> RUpsertPerformance i) ->
  performance d' = performance d /\ next_performance_id d' = next_performance_id d.
Proof.
  intros H Hr. destruct r as [i|i|i|i|i|i|i];
    [..|exfalso; eapply Hr; reflexivity];
    unfold_M H; inv_M H; simpl; auto.
Qed.

Lemma limit1_nil {A} (l : list A) : limit1 l = None -> l = [].
Proof. destruct l; [reflexivity | discriminate]. Qed.

Lemma upsert_perf_inv clk user input d x d' :
  server clk user (RUpsertPerformance input) d = inr (x, d') ->
  perf_inv d -> perf_inv d'.
Proof.
  intros H [Hk [Hi Hlt]]. unfold_M H. inv_M H; unfold perf_inv; simpl.
  - (* an existing row is rewritten in place, by its id *)
    rename r0 into e, s into u.
    apply limit1_in in Heqo1 as [Hin_e Hc_e]. apply perf_of_true in Hc_e as [Hg Hu].
    assert (Ek : map perf_key
                   (update_rows
                      (fun p => sql_eq_int (MemoryPerformance.id p) (MemoryPerformance.id e))
                      (fun p => baseValues clk u input (Some e) (MemoryPerformance.id p))
                      (performance d))
                 = map perf_key (performance d)).
    { apply map_update_rows. intros r' Hr' Hc. apply sql_true_eq_int in Hc.
      assert (r' = e) as -> by (eapply NoDup_map_inj; eauto).
      unfold perf_key, baseValues; simpl. rewrite Hg, Hu. reflexivity. }
    assert (Ei : map MemoryPerformance.id
                   (update_rows
                      (fun p => sql_eq_int (MemoryPerformance.id p) (MemoryPerformance.id e))
                      (fun p => baseValues clk u input (Some e) (MemoryPerformance.id p))
                      (performance d))
                 = map MemoryPerformance.id (performance d)).
    { apply map_update_rows. reflexivity. }
    rewrite Ek, Ei. auto.
  - (* no row for the key: a fresh row is appended *)
    rename s into u.
    apply limit1_nil in Heqo1.
    set (nr := baseValues clk u input None (next_performance_id d)).
    rewrite !map_app. simpl. repeat split.
    + apply NoDup_app; auto; [repeat constructor; auto|].
      intros k Hk1 [<-|[]]. apply in_map_iff in Hk1 as [p [Hpk Hp]].
      assert (Hw : In p (sql_where (perf_of (UpsertPerformanceInput.gameId input) u)
                                   (performance d))).
      { apply in_sql_where. split; auto. apply perf_of_true.
        unfold perf_key, nr, baseValues in Hpk; simpl in Hpk.
        inversion Hpk; auto. }
      rewrite Heqo1 in Hw. destruct Hw.
    + apply NoDup_app; auto; [repeat constructor; auto|].
      intros k Hk1 [<-|[]]. rewrite Forall_forall in Hlt.
      specialize (Hlt _ Hk1). unfold nr, baseValues in Hlt; simpl in Hlt. lia.
    + apply Forall_app; split.
      * eapply Forall_impl; [|exact Hlt]. simpl; intros; lia.
      * repeat constructor. unfold nr, baseValues; simpl. lia.
Qed.

Lemma step_perf_inv d call : perf_inv d -> perf_inv (step d call).
Proof.
  destruct call as [[clk user] r]. unfold step. intros Hinv.
  destruct (server clk user r d) as [e|[x d']] eqn:H; auto.
  destruct r as [i|i|i|i|i|i|i];
    try (eapply upsert_perf_inv; eauto; fail);
    (destruct (server_perf_frame _ _ _ _ _ _ H) as [Ep En]; [intros ? ?; discriminate|];
     unfold perf_inv in *; rewrite Ep, En; exact Hinv).
Qed.

Lemma run_perf_inv d calls : perf_inv d -> perf_inv (run d calls).
Proof.
  revert d; induction calls as [|c calls IH]; intros d Hd; simpl; auto.
  apply IH, step_perf_inv, Hd.
Qed.

(** C4: in every state reached from the empty database by any sequence of
    the seven requests, run one after another, the Performance table has
    at most one row per (userId, gameId). Only [upsertPerformance] writes
    that table: every other request leaves it as it was. *)
Theorem performance_unique_per_user_game :
  (forall (calls : list (Z * option string * request)),
     NoDup (map perf_key (performance (run empty_db calls)))) /\
  (forall clk user r d x d',
     server clk user r d = inr (x, d') ->
     (forall i, r <> RUpsertPerformance i) ->
     performance d' = performance d).
Proof.
  split.
  - intros calls. apply run_perf_inv. repeat constructor.
  - intros clk user r d x d' H Hr. apply (server_perf_frame _ _ _ _ _ _ H Hr).
Qed.

(** ** C10: empty gameType is reachable, empty name is not *)

Lemma min1_nonempty s : min1 s = true <-> s <> "".
Proof.
  destruct s; simpl; split; intros H; try discriminate; try reflexivity.
  exfalso; apply H; reflexivity.
Qed.

Lemma set_game_name (i : UpdateGameInput.t) (g : MemoryGames.row) :
  UpdateGameInput.valid i = true -> min1 (MemoryGames.name g) = true ->
  min1 (MemoryGames.name (set_game (updateData i) g)) = true.
Proof.
  destruct i as [id n de t dl a], g.
  unfold UpdateGameInput.valid; simpl.
  destruct n, de, t, dl, a; simpl; auto.
Qed.

Lemma Forall_update_rows {A} (P : A -> Prop) (c : A -> sql_bool) (f : A -> A) l :
  (forall r, P r -> P (f r)) -> Forall P l -> Forall P (update_rows c f l).
Proof.
  intros Hf Hl. unfold update_rows. apply Forall_map.
  eapply Forall_impl; [|exact Hl]. intros r Hr. destruct (sql_true (c r)); auto.
Qed.

Definition names_ok (d : db) : Prop :=
  Forall (fun g => min1 (MemoryGames.name g) = true) (games d).

Lemma server_names_ok clk user r d x d' :
  server clk user r d = inr (x, d') -> names_ok d -> names_ok d'.
Proof.
  intros H Hd. destruct r as [i|i|i|i|i|i|i]; unfold_M H; inv_M H;
    unfold names_ok in *; simpl; auto.
  - apply Forall_app; split; auto. repeat constructor.
    unfold CreateGameInput.valid in Heqb. simpl. now apply andb_prop in Heqb as [? _].
  - match goal with E : updateData _ = _ |- _ => rewrite <- E end.
    apply Forall_update_rows; auto. intros g' Hg'. apply set_game_name; auto.
Qed.

Lemma run_names_ok d calls : names_ok d -> names_ok (run d calls).
Proof.
  revert d; induction calls as [|[[clk user] r] calls IH]; intros d Hd; simpl; auto.
  apply IH. unfold step.
  destruct (server clk user r d) as [e|[x d']] eqn:H; auto.
  eapply server_names_ok; eauto.
Qed.

Definition blank_type_input := UpdateGameInput.mk 1 None None (Some "") None None.

(** C10: [updateGame] can set an owned game's [gameType] to the empty
    string (its schema takes any string there, while [createGame] rejects
    an empty [gameType]); yet no sequence of requests from the empty
    database ever produces a game with an empty [name], since both
    [createGame] and [updateGame] require [name] to have length at
    least 1. *)
Theorem empty_gameType_reachable_empty_name_not :
  (exists g d',
     updateGame (Some "alice") blank_type_input sample_db = inr (Some g, d') /\
     In g (games d') /\ MemoryGames.ownerId g = Some "alice" /\
     MemoryGames.gameType g = "") /\
  createGame 0 (Some "alice") (CreateGameInput.mk "Recall" None "" None None) sample_db
    = inl (mkErr BAD_REQUEST "Invalid input") /\
  (forall (calls : list (Z * option string * request)),
     Forall (fun g => MemoryGames.name g <> "") (games (run empty_db calls))).
Proof.
  split; [|split].
  - set (g' := MemoryGames.mk 1 (Some "alice") "Recall" None "" None true 0).
    exists g', (mkDb [g'; g_shared; g_bob; g_old] [s_done] [] [] 5 2 1 1).
    split; [vm_compute; reflexivity|]. simpl. repeat split. left; reflexivity.
  - reflexivity.
  - intros calls. assert (H : names_ok (run empty_db calls))
      by (apply run_names_ok; constructor).
    eapply Forall_impl; [|exact H]. intros g Hg. apply min1_nonempty, Hg.
Qed.

(** * Further properties of the actions *)

(** ** Invariants and frames along request sequences *)

Lemma run_preserves (P : db -> Prop) :
  (forall clk user r d x d', server clk user r d = inr (x, d') -> P d -> P d') ->
  forall d calls, P d -> P (run d calls).
Proof.
  intros Hs d calls. revert d.
  induction calls as [|[[clk user] r] calls IH]; intros d Hd; simpl; auto.
  apply IH. unfold step. destruct (server clk user r d) as [e|[x d']] eqn:H; eauto.
Qed.

Lemma run_prefix {B} (proj : db -> list B) :
  (forall clk user r d x d', server clk user r d = inr (x, d') ->
     exists ext, proj d' = (proj d ++ ext)%list) ->
  forall d calls, exists ext, proj (run d calls) = (proj d ++ ext)%list.
Proof.
  intros Hs d calls. revert d.
  induction calls as [|[[clk user] r] calls IH]; intros d.
  - exists []; rewrite app_nil_r; reflexivity.
  - change (run d ((clk, user, r) :: calls)) with (run (step d (clk, user, r)) calls).
    destruct (IH (step d (clk, user, r))) as [e2 E2].
    rewrite E2. unfold step.
    destruct (server clk user r d) as [e|[x d']] eqn:H.
    + exists e2; reflexivity.
    + destruct (Hs _ _ _ _ _ _ H) as [e1 E1]. exists (e1 ++ e2)%list.
      rewrite E1, app_assoc. reflexivity.
Qed.

Lemma set_game_id_owner (data : list game_field) (g : MemoryGames.row) :
  MemoryGames.id (set_game data g) = MemoryGames.id g /\
  MemoryGames.ownerId (set_game data g) = MemoryGames.ownerId g /\
  MemoryGames.createdAt (set_game data g) = MemoryGames.createdAt g.
Proof.
  unfold set_game. revert g. induction data as [|f data IH]; intros g; simpl; auto.
  destruct (IH (set_field f g)) as [E1 [E2 E3]]. rewrite E1, E2, E3.
  destruct g, f; simpl; auto.
Qed.

(** Ids of a table: pairwise distinct and below the autoincrement counter. *)
Definition tbl_ok {A} (idf : A -> Z) (l : list A) (n : Z) : Prop :=
  NoDup (map idf l) /\ Forall (fun i => i < n) (map idf l).

Lemma tbl_ok_append {A} (idf : A -> Z) l n r :
  tbl_ok idf l n -> idf r = n -> tbl_ok idf (l ++ [r])%list (n + 1).
Proof.
  intros [Hnd Hlt] Hr. unfold tbl_ok. rewrite map_app; simpl. split.
  - apply NoDup_app; auto; [repeat constructor; auto|].
    intros k Hk [<-|[]]. rewrite Forall_forall in Hlt. specialize (Hlt _ Hk). lia.
  - apply Forall_app; split.
    + eapply Forall_impl; [|exact Hlt]. simpl; intros; lia.
    + repeat constructor. lia.
Qed.

Lemma tbl_ok_update {A} (idf : A -> Z) c f l n :
  tbl_ok idf l n -> (forall r, idf (f r) = idf r) -> tbl_ok idf (update_rows c f l) n.
Proof.
  intros H Hf. unfold tbl_ok. rewrite map_update_rows; auto.
Qed.

Record ids_inv (d : db) : Prop := {
  games_ids : tbl_ok MemoryGames.id (games d) (next_game_id d);
  sessions_ids : tbl_ok MemorySessions.id (sessions d) (next_session_id d);
  rounds_ids : tbl_ok MemoryRounds.id (rounds d) (next_round_id d);
  performance_ids : tbl_ok MemoryPerformance.id (performance d) (next_performance_id d)
}.

Lemma server_ids_inv clk user r d x d' :
  server clk user r d = inr (x, d') -> ids_inv d -> ids_inv d'.
Proof.
  intros H [Hg Hs Hr Hp]. destruct r as [i|i|i|i|i|i|i]; unfold_M H; inv_M H;
    constructor; simpl; auto;
    first [ apply tbl_ok_append; [assumption | reflexivity]
          | apply tbl_ok_update; [assumption | intros; first [reflexivity | apply set_game_id_owner]] ].
Qed.

(** X1: the autoincrement ids keep every table's ids distinct: in every state
    reached from the empty database, no two rows of a table share an id. *)
Theorem ids_distinct_reachable (calls : list (Z * option string * request)) :
  let d := run empty_db calls in
  NoDup (map MemoryGames.id (games d)) /\
  NoDup (map MemorySessions.id (sessions d)) /\
  NoDup (map MemoryRounds.id (rounds d)) /\
  NoDup (map MemoryPerformance.id (performance d)).
Proof.
  assert (H : ids_inv (run empty_db calls)).
  { apply run_preserves; [exact server_ids_inv|].
    constructor; split; constructor. }
  destruct H as [[? _] [? _] [? _] [? _]]. simpl; auto.
Qed.

(** X2: rounds are append-only: along any sequence of requests the rounds
    already stored stay, unchanged and in order, at the head of the table. *)
Theorem rounds_append_only (d : db) (calls : list (Z * option string * request)) :
  exists ext, rounds (run d calls) = (rounds d ++ ext)%list.
Proof.
  apply (run_prefix rounds). intros clk user r d0 x d' H.
  destruct r as [i|i|i|i|i|i|i]; unfold_M H; inv_M H; simpl;
    first [exists []; rewrite app_nil_r; reflexivity | eexists; reflexivity].
Qed.

Definition game_key (g : MemoryGames.row) : Z * option string :=
  (MemoryGames.id g, MemoryGames.ownerId g).

(** X3: games are never deleted and never change id or owner: along any
    sequence of requests, the (id, ownerId) pairs of the stored games stay
    at the head of the table, and new games are only appended. *)
Theorem game_owner_fixed (d : db) (calls : list (Z * option string * request)) :
  exists ext, map game_key (games (run d calls)) = (map game_key (games d) ++ ext)%list.
Proof.
  apply (run_prefix (fun d => map game_key (games d))). intros clk user r d0 x d' H.
  destruct r as [i|i|i|i|i|i|i]; unfold_M H; inv_M H; simpl;
    try (exists []; rewrite app_nil_r; reflexivity).
  - eexists; rewrite map_app; reflexivity.
  - exists []; rewrite app_nil_r. apply map_update_rows. intros g' _ _.
    unfold game_key. destruct (set_game_id_owner (g :: l) g') as [-> [-> _]].
    reflexivity.
Qed.

(** ** Signed-out callers *)

(** X4: a request without a signed-in user never succeeds and never writes:
    it fails with UNAUTHORIZED (or with BAD_REQUEST when zod already
    rejects its input). *)
Theorem signed_out_rejected (clk : Z) (r : request) (d : db) :
  server clk None r d
    = inl (mkErr UNAUTHORIZED "You must be signed in to perform this action.") \/
  server clk None r d = inl (mkErr BAD_REQUEST "Invalid input").
Proof.
  destruct r as [i|i|i|i|i|i|i];
    unfold server, createGame, updateGame, listMyGames, startSession,
      completeSession, recordRound, upsertPerformance, map_M, zod_check,
      requireUser, bind, ret, throw;
    first [ destruct (CreateGameInput.valid i) | destruct (UpdateGameInput.valid i)
          | destruct (CompleteSessionInput.valid i) | destruct (RecordRoundInput.valid i)
          | destruct (UpsertPerformanceInput.valid i) | idtac ];
    auto.
Qed.

(** ** createGame *)

(** X5: [createGame] rejects an empty [name] or an empty [gameType] with
    BAD_REQUEST, whoever calls it, and writes nothing. *)
Theorem createGame_rejects_empty (clk : Z) (user : option string)
  (input : CreateGameInput.t) (d : db) :
  CreateGameInput.name input = "" \/ CreateGameInput.gameType input = "" ->
  createGame clk user input d = inl (mkErr BAD_REQUEST "Invalid input").
Proof.
  intros H. unfold createGame, zod_check, bind, CreateGameInput.valid.
  destruct H as [H|H]; rewrite H; simpl;
    [reflexivity | rewrite andb_false_r; reflexivity].
Qed.

Lemma createGame_rejects_empty_witness :
  createGame 0 (Some "alice") (CreateGameInput.mk "" None "sequence" None None) sample_db
  = inl (mkErr BAD_REQUEST "Invalid input").
Proof. apply createGame_rejects_empty. left; reflexivity. Defined.

(** X6: a game created by [u] is owned by [u], gets the next id and is
    appended to the table; unless it was created with [isActive: false], the
    next [listMyGames] of [u] (without [includeInactive]) lists it. *)
Theorem createGame_then_listMyGames (clk : Z) (u : string) (input : CreateGameInput.t)
  (d : db) :
  CreateGameInput.valid input = true ->
  CreateGameInput.isActive input <> Some false ->
  exists g d', createGame clk (Some u) input d = inr (g, d') /\
    MemoryGames.id g = next_game_id d /\
    MemoryGames.ownerId g = Some u /\
    MemoryGames.isActive g = true /\
    games d' = (games d ++ [g])%list /\
    exists gs, listMyGames (Some u) None d' = inr (gs, d') /\ In g gs.
Proof.
  intros Hv Ha. unfold createGame, zod_check, bind, ret, requireUser, insert_game.
  rewrite Hv. simpl. do 2 eexists. split; [reflexivity|]. simpl.
  assert (Hact : nullish (CreateGameInput.isActive input) true = true).
  { destruct (CreateGameInput.isActive input) as [[]|]; simpl; congruence. }
  repeat split; auto.
  unfold listMyGames, bind, ret, requireUser, select_games; simpl.
  eexists; split; [reflexivity|].
  apply filter_In. split; [|exact Hact].
  apply in_sql_where. split.
  - apply in_or_app; right; left; reflexivity.
  - simpl. rewrite String.eqb_refl. reflexivity.
Qed.

Lemma createGame_then_listMyGames_witness :
  exists g d',
    createGame 7 (Some "carol") (CreateGameInput.mk "Recall" None "sequence" None None)
      sample_db = inr (g, d') /\
    MemoryGames.id g = 5 /\ MemoryGames.ownerId g = Some "carol" /\
    MemoryGames.isActive g = true /\ games d' = (games sample_db ++ [g])%list /\
    exists gs, listMyGames (Some "carol") None d' = inr (gs, d') /\ In g gs.
Proof.
  apply (createGame_then_listMyGames 7 "carol"
           (CreateGameInput.mk "Recall" None "sequence" None None) sample_db);
    [reflexivity | discriminate].
Defined.

(** ** startSession *)

(** X7: with distinct game ids, [startSession] succeeds exactly when the
    caller owns an active game with the requested id. *)
Theorem startSession_succeeds_iff (clk : Z) (u : string) (input : StartSessionInput.t)
  (d : db) :
  NoDup (map MemoryGames.id (games d)) ->
  (exists s d', startSession clk (Some u) input d = inr (s, d')) <->
  (exists g, In g (games d) /\ MemoryGames.id g = StartSessionInput.gameId input /\
             MemoryGames.ownerId g = Some u /\ MemoryGames.isActive g = true).
Proof.
  intros Hnd. unfold startSession, bind, ret, requireUser, select_games, insert_session.
  simpl. split.
  - intros [s [d' E]].
    destruct (limit1 (sql_where (accessible_game (StartSessionInput.gameId input) u)
                                (games d))) as [g|] eqn:Hl; [|discriminate].
    destruct (MemoryGames.isActive g) eqn:Ha; [|discriminate].
    apply limit1_in in Hl as [Hin Hc]. apply accessible_game_true in Hc as [? ?].
    exists g; auto.
  - intros [g [Hin [Hid [Hown Ha]]]].
    rewrite (limit1_unique _ _ g Hin).
    + rewrite Ha. do 2 eexists; reflexivity.
    + apply accessible_game_true; auto.
    + intros y Hy Hc. apply accessible_game_true in Hc as [Hc _].
      apply (NoDup_map_inj MemoryGames.id (games d)); congruence.
Qed.

Lemma startSession_succeeds_iff_witness :
  exists s d', startSession 500 (Some "alice") (StartSessionInput.mk 1 None None) sample_db
               = inr (s, d').
Proof.
  apply (startSession_succeeds_iff 500 "alice" (StartSessionInput.mk 1 None None) sample_db).
  - repeat constructor; simpl; intuition discriminate.
  - exists g_recall; simpl; auto.
Defined.

(** X8: a successful [startSession] appends exactly one session: the next
    id, the requested game, the caller as user, status [in_progress],
    [totalScore] 0, [startedAt] now, no [endedAt], and the supplied
    [difficulty] and [meta]; the other tables are untouched. *)
Theorem startSession_effect (clk : Z) (u : string) (input : StartSessionInput.t)
  (d : db) (s : MemorySessions.row) (d' : db) :
  startSession clk (Some u) input d = inr (s, d') ->
  s = MemorySessions.mk (next_session_id d) (StartSessionInput.gameId input) u
        in_progress 0 (StartSessionInput.difficulty input) clk None
        (StartSessionInput.meta input) /\
  sessions d' = (sessions d ++ [s])%list /\
  next_session_id d' = next_session_id d + 1 /\
  games d' = games d /\ rounds d' = rounds d /\ performance d' = performance d.
Proof.
  intros H. unfold startSession, bind, ret, requireUser, select_games, insert_session in H.
  simpl in H.
  destruct (limit1 _) as [g|]; [|discriminate].
  destruct (MemoryGames.isActive g); [|discriminate].
  inversion H; subst; simpl. repeat split.
Qed.

Lemma startSession_effect_witness :
  exists s d', startSession 500 (Some "alice") (StartSessionInput.mk 1 (Some "easy") None)
                 sample_db = inr (s, d') /\
    MemorySessions.status s = in_progress /\ MemorySessions.endedAt s = None /\
    sessions d' = (sessions sample_db ++ [s])%list.
Proof.
  do 2 eexists. split; [reflexivity|].
  destruct (startSession_effect 500 "alice" (StartSessionInput.mk 1 (Some "easy") None)
              sample_db _ _ eq_refl) as [_ [Hs _]].
  split; [reflexivity|]. split; [reflexivity|]. exact Hs.
Defined.

(** ** Sessions of other users *)

(** X9: [completeSession] on an id that is not one of the caller's sessions
    (no such session, or another user's) fails with NOT_FOUND "Session not
    found." and writes nothing. *)
Theorem completeSession_foreign_not_found (clk : Z) (u : string)
  (input : CompleteSessionInput.t) (d : db) :
  CompleteSessionInput.valid input = true ->
  (forall s, In s (sessions d) -> MemorySessions.id s = CompleteSessionInput.id input ->
             MemorySessions.userId s <> u) ->
  completeSession clk (Some u) input d = inl (mkErr NOT_FOUND "Session not found.").
Proof.
  intros Hv Hnone.
  unfold completeSession, zod_check, bind, ret, requireUser, select_sessions.
  rewrite Hv; simpl. rewrite limit1_none; [reflexivity|].
  intros y Hy. destruct (sql_true (own_session (CompleteSessionInput.id input) u y)) eqn:Hc;
    [|reflexivity].
  apply own_session_true in Hc as [? ?]. exfalso; eapply Hnone; eauto.
Qed.

Lemma completeSession_foreign_not_found_witness :
  completeSession 300 (Some "bob") (CompleteSessionInput.mk 1 None None None None) sample_db
  = inl (mkErr NOT_FOUND "Session not found.").
Proof.
  apply completeSession_foreign_not_found; [reflexivity|].
  simpl. intros s [<-|[]] _. discriminate.
Defined.

(** X10: [recordRound] against an id that is not one of the caller's
    sessions fails with NOT_FOUND "Session not found." and adds no round. *)
Theorem recordRound_foreign_not_found (clk : Z) (u : string) (input : RecordRoundInput.t)
  (d : db) :
  RecordRoundInput.valid input = true ->
  (forall s, In s (sessions d) -> MemorySessions.id s = RecordRoundInput.sessionId input ->
             MemorySessions.userId s <> u) ->
  recordRound clk (Some u) input d = inl (mkErr NOT_FOUND "Session not found.").
Proof.
  intros Hv Hnone.
  unfold recordRound, zod_check, bind, ret, requireUser, select_sessions.
  rewrite Hv; simpl. rewrite limit1_none; [reflexivity|].
  intros y Hy.
  destruct (sql_true (own_session (RecordRoundInput.sessionId input) u y)) eqn:Hc;
    [|reflexivity].
  apply own_session_true in Hc as [? ?]. exfalso; eapply Hnone; eauto.
Qed.

Lemma recordRound_foreign_not_found_witness :
  recordRound 400 (Some "bob") round_input sample_db
  = inl (mkErr NOT_FOUND "Session not found.").
Proof.
  apply recordRound_foreign_not_found; [reflexivity|].
  simpl. intros s [<-|[]] _. discriminate.
Defined.

(** ** upsertPerformance *)

(** X11: for valid input, [upsertPerformance] succeeds exactly when the
    caller owns a game with the requested id; unlike [startSession] it does
    not look at [isActive], so an inactive game of the caller is accepted. *)
Theorem upsertPerformance_succeeds_iff (clk : Z) (u : string)
  (input : UpsertPerformanceInput.t) (d : db) :
  UpsertPerformanceInput.valid input = true ->
  (exists p d', upsertPerformance clk (Some u) input d = inr (p, d')) <->
  (exists g, In g (games d) /\ MemoryGames.id g = UpsertPerformanceInput.gameId input /\
             MemoryGames.ownerId g = Some u).
Proof.
  intros Hv.
  unfold upsertPerformance, zod_check, bind, ret, requireUser, select_games,
    select_performance, update_performance, insert_performance.
  rewrite Hv; simpl. split.
  - intros [p [d' E]].
    destruct (limit1 (sql_where (accessible_game (UpsertPerformanceInput.gameId input) u)
                                (games d))) as [g|] eqn:Hl; [|discriminate].
    apply limit1_in in Hl as [Hin Hc]. apply accessible_game_true in Hc as [? ?].
    exists g; auto.
  - intros [g [Hin [Hid Hown]]].
    destruct (limit1_some (accessible_game (UpsertPerformanceInput.gameId input) u)
                (games d) g Hin) as [y Hy]; [apply accessible_game_true; auto|].
    rewrite Hy.
    destruct (limit1 (sql_where _ (performance d))); do 2 eexists; reflexivity.
Qed.

Lemma upsertPerformance_succeeds_iff_witness :
  MemoryGames.isActive g_old = false /\
  exists p d', upsertPerformance 10 (Some "alice") (up 4 (Some 1) None None) sample_db
               = inr (p, d').
Proof.
  split; [reflexivity|].
  apply (upsertPerformance_succeeds_iff 10 "alice" (up 4 (Some 1) None None) sample_db);
    [reflexivity|].
  exists g_old; simpl; auto 6.
Defined.

(** [upsertPerformance] when the caller owns the game and the row [e] for
    (caller, game) exists: [e] is rewritten in place. *)
Lemma upsert_existing (clk : Z) (u : string) (input : UpsertPerformanceInput.t) (d : db)
  (e : MemoryPerformance.row) :
  perf_inv d ->
  UpsertPerformanceInput.valid input = true ->
  (exists g, In g (games d) /\ MemoryGames.id g = UpsertPerformanceInput.gameId input /\
             MemoryGames.ownerId g = Some u) ->
  In e (performance d) ->
  MemoryPerformance.userId e = u ->
  MemoryPerformance.gameId e = UpsertPerformanceInput.gameId input ->
  exists d', upsertPerformance clk (Some u) input d
             = inr (Some (baseValues clk u input (Some e) (MemoryPerformance.id e)), d') /\
    In (baseValues clk u input (Some e) (MemoryPerformance.id e)) (performance d') /\
    length (performance d') = length (performance d) /\
    games d' = games d.
Proof.
  intros [Hk [Hi _]] Hv [g [Hin [Hid Hown]]] He Hu Hg.
  unfold upsertPerformance, zod_check, bind, ret, requireUser, select_games,
    select_performance, update_performance.
  rewrite Hv; simpl.
  destruct (limit1_some (accessible_game (UpsertPerformanceInput.gameId input) u)
              (games d) g Hin) as [y Hy]; [apply accessible_game_true; auto|].
  rewrite Hy.
  rewrite (limit1_unique _ _ e He).
  - rewrite (sql_where_by_id MemoryPerformance.id _ e Hi He). simpl.
    eexists; split; [reflexivity|]. simpl. repeat split.
    + apply (in_update_rows _
               (fun p => baseValues clk u input (Some e) (MemoryPerformance.id p)) _ e He).
      apply sql_true_eq_int; reflexivity.
    + unfold update_rows. apply length_map.
  - apply perf_of_true; auto.
  - intros y' Hy' Hc. apply perf_of_true in Hc as [Hc1 Hc2].
    apply (NoDup_map_inj perf_key (performance d)); auto.
    unfold perf_key. congruence.
Qed.

(** X12: when the caller's row [e] for the game already exists,
    [upsertPerformance] rewrites [e] in place (same id, no new row): each
    omitted field keeps [e]'s value, each supplied one replaces it, and
    [updatedAt] is now. *)
Theorem upsertPerformance_keeps_omitted (clk : Z) (u : string)
  (input : UpsertPerformanceInput.t) (d : db) (e : MemoryPerformance.row) :
  perf_inv d ->
  UpsertPerformanceInput.valid input = true ->
  (exists g, In g (games d) /\ MemoryGames.id g = UpsertPerformanceInput.gameId input /\
             MemoryGames.ownerId g = Some u) ->
  In e (performance d) ->
  MemoryPerformance.userId e = u ->
  MemoryPerformance.gameId e = UpsertPerformanceInput.gameId input ->
  exists p d', upsertPerformance clk (Some u) input d = inr (Some p, d') /\
    In p (performance d') /\
    length (performance d') = length (performance d) /\
    MemoryPerformance.id p = MemoryPerformance.id e /\
    MemoryPerformance.updatedAt p = clk /\
    MemoryPerformance.totalSessions p
      = nullish (UpsertPerformanceInput.totalSessions input) (MemoryPerformance.totalSessions e) /\
    MemoryPerformance.averageScore p
      = nullish (UpsertPerformanceInput.averageScore input) (MemoryPerformance.averageScore e) /\
    MemoryPerformance.bestScore p
      = nullish (UpsertPerformanceInput.bestScore input) (MemoryPerformance.bestScore e) /\
    MemoryPerformance.difficultyPreference p
      = match UpsertPerformanceInput.difficultyPreference input with
        | Some x => Some x
        | None => MemoryPerformance.difficultyPreference e
        end.
Proof.
  intros Hinv Hv Hg He Hu Hge.
  destruct (upsert_existing clk u input d e Hinv Hv Hg He Hu Hge) as [d' [E [Hin [Hlen _]]]].
  do 2 eexists. split; [exact E|]. split; [exact Hin|]. split; [exact Hlen|].
  unfold baseValues, merge_field; simpl.
  repeat split; destruct (UpsertPerformanceInput.totalSessions input),
    (UpsertPerformanceInput.averageScore input), (UpsertPerformanceInput.bestScore input);
    reflexivity.
Qed.

Definition perf_alice_1 :=
  MemoryPerformance.mk 1 "alice" 1 5 (3#1) 0 (Some "easy") 10.

Definition sample_db_perf : db :=
  mkDb [g_recall; g_shared; g_bob; g_old] [s_done] [] [perf_alice_1] 5 2 1 2.

Lemma upsertPerformance_keeps_omitted_witness :
  exists p d', upsertPerformance 20 (Some "alice") (up 1 None None (Some 90%Q)) sample_db_perf
               = inr (Some p, d') /\ MemoryPerformance.totalSessions p = 5 /\
               MemoryPerformance.bestScore p = 90%Q.
Proof.
  destruct (upsertPerformance_keeps_omitted 20 "alice" (up 1 None None (Some 90%Q))
              sample_db_perf perf_alice_1) as [p [d' [E [_ [_ [_ [_ [Hts [_ [Hb _]]]]]]]]]].
  - unfold perf_inv; simpl. repeat constructor; simpl; auto; lia.
  - reflexivity.
  - exists g_recall; simpl; auto.
  - simpl; auto.
  - reflexivity.
  - reflexivity.
  - exists p, d'. split; [exact E|]. rewrite Hts, Hb. split; reflexivity.
Defined.

(** X13: the first [upsertPerformance] of the caller for a game (no row yet)
    appends one row with the next id: supplied values, 0 for omitted
    counters, the supplied [difficultyPreference] or none, [updatedAt] now. *)
Theorem upsertPerformance_first_row (clk : Z) (u : string)
  (input : UpsertPerformanceInput.t) (d : db) :
  UpsertPerformanceInput.valid input = true ->
  (exists g, In g (games d) /\ MemoryGames.id g = UpsertPerformanceInput.gameId input /\
             MemoryGames.ownerId g = Some u) ->
  (forall p, In p (performance d) ->
     perf_key p <> (u, UpsertPerformanceInput.gameId input)) ->
  let p := MemoryPerformance.mk (next_performance_id d) u
             (UpsertPerformanceInput.gameId input)
             (nullish (UpsertPerformanceInput.totalSessions input) 0)
             (nullish (UpsertPerformanceInput.averageScore input) 0%Q)
             (nullish (UpsertPerformanceInput.bestScore input) 0%Q)
             (UpsertPerformanceInput.difficultyPreference input) clk in
  exists d', upsertPerformance clk (Some u) input d = inr (Some p, d') /\
    performance d' = (performance d ++ [p])%list /\
    next_performance_id d' = next_performance_id d + 1.
Proof.
  intros Hv [g [Hin [Hid Hown]]] Hnone p.
  unfold upsertPerformance, zod_check, bind, ret, requireUser, select_games,
    select_performance, insert_performance.
  rewrite Hv; simpl.
  destruct (limit1_some (accessible_game (UpsertPerformanceInput.gameId input) u)
              (games d) g Hin) as [y Hy]; [apply accessible_game_true; auto|].
  rewrite Hy. rewrite limit1_none.
  - subst p. unfold baseValues, merge_field.
    destruct (UpsertPerformanceInput.difficultyPreference input);
      eexists; (split; [reflexivity | split; reflexivity]).
  - intros y' Hy'.
    destruct (sql_true (perf_of (UpsertPerformanceInput.gameId input) u y')) eqn:Hc;
      [|reflexivity].
    apply perf_of_true in Hc as [Hc1 Hc2]. exfalso. apply (Hnone y' Hy').
    unfold perf_key. rewrite Hc1, Hc2. reflexivity.
Qed.

Lemma upsertPerformance_first_row_witness :
  exists d', upsertPerformance 10 (Some "alice") (up 1 (Some 5) None None) sample_db
             = inr (Some (MemoryPerformance.mk 1 "alice" 1 5 0 0 None 10), d') /\
    performance d' = [MemoryPerformance.mk 1 "alice" 1 5 0 0 None 10] /\
    next_performance_id d' = 2.
Proof.
  apply (upsertPerformance_first_row 10 "alice" (up 1 (Some 5) None None) sample_db).
  - reflexivity.
  - exists g_recall; simpl; auto.
  - simpl. intros p [].
Defined.

(** What one [upsertPerformance] of [u] leaves behind, on a store whose
    Performance table satisfies [perf_inv]. *)
Lemma upsert_result (clk : Z) (u : string) (input : UpsertPerformanceInput.t) (d d' : db)
  (p : MemoryPerformance.row) :
  perf_inv d ->
  upsertPerformance clk (Some u) input d = inr (Some p, d') ->
  In p (performance d') /\ MemoryPerformance.userId p = u /\
  MemoryPerformance.gameId p = UpsertPerformanceInput.gameId input /\
  (exists ex, p = baseValues clk u input ex (MemoryPerformance.id p)) /\
  games d' = games d /\
  (exists g, In g (games d) /\ MemoryGames.id g = UpsertPerformanceInput.gameId input /\
             MemoryGames.ownerId g = Some u).
Proof.
  intros [_ [Hi _]] H.
  unfold upsertPerformance, zod_check, bind, ret, requireUser, select_games,
    select_performance, update_performance, insert_performance in H.
  destruct (UpsertPerformanceInput.valid input); [|discriminate]. simpl in H.
  destruct (limit1 (sql_where (accessible_game (UpsertPerformanceInput.gameId input) u)
                              (games d))) as [g|] eqn:Hgl; [|discriminate].
  apply limit1_in in Hgl as [Hgin Hgc]. apply accessible_game_true in Hgc as [Hgid Hgown].
  destruct (limit1 (sql_where (perf_of (UpsertPerformanceInput.gameId input) u)
                              (performance d))) as [e|] eqn:Hl.
  - apply limit1_in in Hl as [He Hc]. apply perf_of_true in Hc as [Hge Hue].
    rewrite (sql_where_by_id MemoryPerformance.id _ e Hi He) in H. simpl in H.
    inversion H; subst; clear H; simpl.
    repeat split; eauto.
    apply (in_update_rows _
             (fun p => baseValues clk (MemoryPerformance.userId e) input (Some e)
                         (MemoryPerformance.id p)) _ e He).
    apply sql_true_eq_int; reflexivity.
  - simpl in H. inversion H; subst; clear H; simpl.
    repeat split; eauto.
    apply in_or_app; right; left; reflexivity.
Qed.

(** X14: repeating an [upsertPerformance] with the same input changes
    nothing but [updatedAt]: the second call rewrites the row of the first
    in place, with the same id and the same values, and adds no row. *)
Theorem upsertPerformance_idempotent (clk1 clk2 : Z) (u : string)
  (input : UpsertPerformanceInput.t) (d d1 : db) (p1 : MemoryPerformance.row) :
  perf_inv d ->
  upsertPerformance clk1 (Some u) input d = inr (Some p1, d1) ->
  exists d2,
    upsertPerformance clk2 (Some u) input d1
    = inr (Some (MemoryPerformance.mk (MemoryPerformance.id p1) (MemoryPerformance.userId p1)
                   (MemoryPerformance.gameId p1) (MemoryPerformance.totalSessions p1)
                   (MemoryPerformance.averageScore p1) (MemoryPerformance.bestScore p1)
                   (MemoryPerformance.difficultyPreference p1) clk2), d2) /\
    length (performance d2) = length (performance d1).
Proof.
  intros Hinv E.
  destruct (upsert_result clk1 u input d d1 p1 Hinv E)
    as [Hin [Hu [Hg [[ex Hp1] [Hgames Hown]]]]].
  assert (Hv : UpsertPerformanceInput.valid input = true).
  { unfold upsertPerformance, zod_check, bind in E.
    destruct (UpsertPerformanceInput.valid input); [reflexivity|discriminate]. }
  assert (Hinv1 : perf_inv d1).
  { apply (upsert_perf_inv clk1 (Some u) input d (PerformanceResp (Some p1)) d1); auto.
    unfold server, map_M, bind. rewrite E. reflexivity. }
  assert (Hown1 : exists g, In g (games d1) /\
                    MemoryGames.id g = UpsertPerformanceInput.gameId input /\
                    MemoryGames.ownerId g = Some u) by (rewrite Hgames; exact Hown).
  destruct (upsert_existing clk2 u input d1 p1 Hinv1 Hv Hown1 Hin Hu Hg)
    as [d2 [E2 [_ [Hlen _]]]].
  exists d2. split; [|exact Hlen]. rewrite E2. do 3 f_equal.
  assert (Ets : MemoryPerformance.totalSessions p1
                = merge_field (UpsertPerformanceInput.totalSessions input) ex
                    MemoryPerformance.totalSessions 0) by (rewrite Hp1 at 1; reflexivity).
  assert (Eavg : MemoryPerformance.averageScore p1
                 = merge_field (UpsertPerformanceInput.averageScore input) ex
                     MemoryPerformance.averageScore 0%Q) by (rewrite Hp1 at 1; reflexivity).
  assert (Ebest : MemoryPerformance.bestScore p1
                  = merge_field (UpsertPerformanceInput.bestScore input) ex
                      MemoryPerformance.bestScore 0%Q) by (rewrite Hp1 at 1; reflexivity).
  assert (Edp : MemoryPerformance.difficultyPreference p1
                = match UpsertPerformanceInput.difficultyPreference input with
                  | Some x => Some x
                  | None => match ex with
                            | Some e => MemoryPerformance.difficultyPreference e
                            | None => None
                            end
                  end) by (rewrite Hp1 at 1; reflexivity).
  unfold baseValues, merge_field; simpl.
  rewrite Ets, Eavg, Ebest, Edp, Hu, Hg. unfold merge_field.
  destruct (UpsertPerformanceInput.totalSessions input),
    (UpsertPerformanceInput.averageScore input), (UpsertPerformanceInput.bestScore input),
    (UpsertPerformanceInput.difficultyPreference input); reflexivity.
Qed.

Definition perf_first := MemoryPerformance.mk 1 "alice" 1 5 0 0 None 10.

Definition db_after_first : db :=
  mkDb [g_recall; g_shared; g_bob; g_old] [s_done] [] [perf_first] 5 2 1 2.

Lemma upsertPerformance_idempotent_witness :
  exists d2,
    upsertPerformance 30 (Some "alice") (up 1 (Some 5) None None) db_after_first
    = inr (Some (MemoryPerformance.mk (MemoryPerformance.id perf_first)
                   (MemoryPerformance.userId perf_first) (MemoryPerformance.gameId perf_first)
                   (MemoryPerformance.totalSessions perf_first)
                   (MemoryPerformance.averageScore perf_first)
                   (MemoryPerformance.bestScore perf_first)
                   (MemoryPerformance.difficultyPreference perf_first) 30), d2) /\
    length (performance d2) = length (performance db_after_first).
Proof.
  apply (upsertPerformance_idempotent 10 30 "alice" (up 1 (Some 5) None None) sample_db
           db_after_first perf_first).
  - unfold perf_inv; simpl. repeat constructor.
  - reflexivity.
Defined.

(** ** updateGame *)

Lemma set_game_fields (i : UpdateGameInput.t) (g : MemoryGames.row) :
  let g' := set_game (updateData i) g in
  MemoryGames.name g' = nullish (UpdateGameInput.name i) (MemoryGames.name g) /\
  MemoryGames.description g'
    = match UpdateGameInput.description i with
      | Some x => Some x | None => MemoryGames.description g end /\
  MemoryGames.gameType g' = nullish (UpdateGameInput.gameType i) (MemoryGames.gameType g) /\
  MemoryGames.difficultyLevels g'
    = match UpdateGameInput.difficultyLevels i with
      | Some x => Some x | None => MemoryGames.difficultyLevels g end /\
  MemoryGames.isActive g' = nullish (UpdateGameInput.isActive i) (MemoryGames.isActive g).
Proof.
  destruct i as [id n de t dl a], g; simpl.
  destruct n, de, t, dl, a; simpl; repeat split.
Qed.

(** X15: [updateGame] on a game [g] of the caller (game ids distinct) writes
    exactly the supplied fields: each supplied one of [name],
    [description], [gameType], [difficultyLevels], [isActive] replaces
    [g]'s value, each omitted one keeps it; [id], [ownerId] and
    [createdAt] never change; the row is updated in place. *)
Theorem updateGame_partial_update (u : string) (input : UpdateGameInput.t) (d : db)
  (g : MemoryGames.row) :
  UpdateGameInput.valid input = true ->
  In g (games d) ->
  MemoryGames.ownerId g = Some u ->
  UpdateGameInput.id input = MemoryGames.id g ->
  NoDup (map MemoryGames.id (games d)) ->
  exists g' d', updateGame (Some u) input d = inr (Some g', d') /\
    In g' (games d') /\ length (games d') = length (games d) /\
    MemoryGames.id g' = MemoryGames.id g /\
    MemoryGames.ownerId g' = MemoryGames.ownerId g /\
    MemoryGames.createdAt g' = MemoryGames.createdAt g /\
    MemoryGames.name g' = nullish (UpdateGameInput.name input) (MemoryGames.name g) /\
    MemoryGames.description g'
      = match UpdateGameInput.description input with
        | Some x => Some x | None => MemoryGames.description g end /\
    MemoryGames.gameType g'
      = nullish (UpdateGameInput.gameType input) (MemoryGames.gameType g) /\
    MemoryGames.difficultyLevels g'
      = match UpdateGameInput.difficultyLevels input with
        | Some x => Some x | None => MemoryGames.difficultyLevels g end /\
    MemoryGames.isActive g' = nullish (UpdateGameInput.isActive input) (MemoryGames.isActive g).
Proof.
  intros Hv Hin Hown Hid Hnd.
  assert (Huniq : forall y, In y (games d) ->
            sql_true (owned_game (UpdateGameInput.id input) u y) = true -> y = g).
  { intros y Hy Hc. apply owned_game_true in Hc as [Hc _].
    apply (NoDup_map_inj MemoryGames.id (games d)); congruence. }
  assert (Hg : sql_true (owned_game (UpdateGameInput.id input) u g) = true)
    by (apply owned_game_true; auto).
  assert (Hsel : sql_where (owned_game (UpdateGameInput.id input) u) (games d)
                 = sql_where (fun y => sql_eq_int (MemoryGames.id y) (MemoryGames.id g))
                     (games d)).
  { apply filter_ext_in. intros y Hy.
    destruct (sql_true (owned_game (UpdateGameInput.id input) u y)) eqn:Hc.
    - rewrite (Huniq y Hy Hc). unfold sql_eq_int; simpl. rewrite Z.eqb_refl. reflexivity.
    - unfold sql_eq_int; simpl. destruct (Z.eqb_spec (MemoryGames.id y) (MemoryGames.id g))
        as [E|]; auto.
      exfalso. assert (y = g) as ->
        by (apply (NoDup_map_inj MemoryGames.id (games d)); auto).
      congruence. }
  rewrite (sql_where_by_id MemoryGames.id _ g Hnd Hin) in Hsel.
  destruct (set_game_id_owner (updateData input) g) as [Ei [Eo Ec]].
  destruct (set_game_fields input g) as [En [Ede [Et [Edl Ea]]]].
  unfold updateGame, zod_check, bind, ret, requireUser, select_games, update_games.
  rewrite Hv; simpl.
  destruct (updateData input) as [|f data] eqn:Edata.
  - rewrite Hsel. simpl in *. exists g, d. repeat split; auto.
  - remember (set_game (f :: data)) as sg eqn:Esg.
    rewrite Hsel. simpl. rewrite Hsel. simpl.
    eexists; eexists; split; [reflexivity|]. simpl.
    split; [|split].
    + apply in_update_rows; auto.
    + unfold update_rows. apply length_map.
    + repeat split; assumption.
Qed.

Lemma updateGame_partial_update_witness :
  exists g' d',
    updateGame (Some "alice") (UpdateGameInput.mk 1 None None None None (Some false)) sample_db
    = inr (Some g', d') /\ MemoryGames.isActive g' = false /\ MemoryGames.name g' = "Recall".
Proof.
  destruct (updateGame_partial_update "alice"
              (UpdateGameInput.mk 1 None None None None (Some false)) sample_db g_recall)
    as [g' [d' [E [_ [_ [_ [_ [_ [En [_ [_ [_ Ea]]]]]]]]]]]];
    [reflexivity | simpl; auto | reflexivity | reflexivity
    | repeat constructor; simpl; intuition discriminate |].
  exists g', d'. split; [exact E|]. rewrite Ea, En. split; reflexivity.
Defined.

(** ** References between tables *)

(** The [references] of the tables: each session's [gameId], each round's
    [sessionId] and each performance row's [gameId] is the id of a stored
    row of the referenced table. *)
Definition refs_ok (d : db) : Prop :=
  Forall (fun s => In (MemorySessions.gameId s) (map MemoryGames.id (games d))) (sessions d) /\
  Forall (fun r => In (MemoryRounds.sessionId r) (map MemorySessions.id (sessions d))) (rounds d) /\
  Forall (fun p => In (MemoryPerformance.gameId p) (map MemoryGames.id (games d)))
    (performance d).

Lemma Forall_in_app {A} (key : A -> Z) (ids ext : list Z) (l : list A) :
  Forall (fun x => In (key x) ids) l -> Forall (fun x => In (key x) (ids ++ ext)%list) l.
Proof. intros H. eapply Forall_impl; [|exact H]. intros x Hx. apply in_or_app; auto. Qed.

Lemma found_game_id {c : MemoryGames.row -> sql_bool} {l g} (id : Z) :
  limit1 (sql_where c l) = Some g ->
  (forall g, sql_true (c g) = true -> MemoryGames.id g = id) ->
  In id (map MemoryGames.id l).
Proof.
  intros H Hc. apply limit1_in in H as [Hin Ht].
  rewrite <- (Hc g Ht). apply in_map; exact Hin.
Qed.

Lemma found_session_id {c : MemorySessions.row -> sql_bool} {l s} (id : Z) :
  limit1 (sql_where c l) = Some s ->
  (forall s, sql_true (c s) = true -> MemorySessions.id s = id) ->
  In id (map MemorySessions.id l).
Proof.
  intros H Hc. apply limit1_in in H as [Hin Ht].
  rewrite <- (Hc s Ht). apply in_map; exact Hin.
Qed.

(** The row found by the lookup of the handler has the referenced id. *)
Ltac found_ref :=
  simpl;
  match goal with
  | H : limit1 (sql_where (accessible_game _ _) _) = Some _ |- _ =>
      eapply (found_game_id _ H); intros ? Hc; apply accessible_game_true in Hc; tauto
  | H : limit1 (sql_where (own_session _ _) _) = Some _ |- _ =>
      eapply (found_session_id _ H); intros ? Hc; apply own_session_true in Hc; tauto
  end.

Lemma server_refs_ok clk user r d x d' :
  server clk user r d = inr (x, d') -> refs_ok d -> refs_ok d'.
Proof.
  intros H [Hs [Hr Hp]]. destruct r as [i|i|i|i|i|i|i]; unfold_M H; inv_M H;
    unfold refs_ok; simpl.
  all: repeat split; rewrite ?map_app.
  all: try (rewrite map_update_rows by (intros; first [apply set_game_id_owner | reflexivity])).
  all: first [ assumption | apply Forall_in_app; assumption
             | apply Forall_app; split; [assumption | repeat constructor; found_ref]
             | apply Forall_update_rows; [intros; first [assumption | found_ref] | assumption] ].
Qed.

(** X16: the references declared by the tables hold in every state reached
    from the empty database: each session's [gameId] and each performance
    row's [gameId] is the id of a stored game, and each round's
    [sessionId] the id of a stored session. *)
Theorem references_reachable (calls : list (Z * option string * request)) :
  refs_ok (run empty_db calls).
Proof.
  apply run_preserves; [exact server_refs_ok|].
  repeat split; constructor.
Qed.

